(** * The [inv/poly] pair style of LAMMPS ([src/USER-MISC/pair_inv_poly.cpp])

    A shallow embedding of [PairInvPoly] and the properties of its
    per-type-pair tables, its precomputation step, its force kernel and its
    restart stream.

    Conventions of the embedding:
    - a C [double] is a primitive binary64 float ([PrimFloat.float]), so every
      product, quotient and comparison below rounds and compares as the
      compiled code does;
    - a C [int] is a [Z] (the type counts and indices of the program stay far
      from the 32-bit limits);
    - a [double **] table is a function of its two indices; an [x[i][j] = v]
      assignment is a pointwise update;
    - a member function that may call [error->all] runs in a state-and-error
      monad which keeps the object as it was when the error was raised. *)

From Stdlib Require Import ZArith List String Bool Lia Floats.
Import ListNotations.

Local Open Scope string_scope.
Local Open Scope list_scope.
Local Open Scope Z_scope.

(* ================================================================== *)
(** ** Loops *)

Section Loops.
Context {S : Type}.

(** [n] iterations of [body], the counter starting at [i]. *)
Fixpoint iter_up (n : nat) (i : Z) (body : Z -> S -> S) (s : S) : S :=
  match n with
  | O => s
  | Datatypes.S k => iter_up k (i + 1) body (body i s)
  end.

(** [for (i = lo; i <= hi; i++) body] *)
Definition for_to (lo hi : Z) (body : Z -> S -> S) (s : S) : S :=
  iter_up (Z.to_nat (hi + 1 - lo)) lo body s.

(** [for (i = lo; i < hi; i++) body] *)
Definition for_below (lo hi : Z) (body : Z -> S -> S) (s : S) : S :=
  iter_up (Z.to_nat (hi - lo)) lo body s.

End Loops.

(* ================================================================== *)
(** ** The object: settings and per-type-pair tables *)

Definition table (A : Type) : Type := Z -> Z -> A.

Definition tset {A : Type} (t : table A) (i j : Z) (v : A) : table A :=
  fun i' j' => if (i' =? i) && (j' =? j) then v else t i' j'.

(** The [double **] members of the class ([pair_inv_poly.h], and [cutsq] of
    the base class), by name. *)
Inductive dfield : Set :=
  | cutsq | cut | sigma | offset
  | a2 | a4 | a6 | a8 | a10 | a12
  | inv_poly2 | inv_poly4 | inv_poly6 | inv_poly8 | inv_poly10 | inv_poly12
  | dinv_poly2 | dinv_poly4 | dinv_poly6 | dinv_poly8 | dinv_poly10 | dinv_poly12.

Definition dfield_eq_dec (f g : dfield) : {f = g} + {f <> g}.
Proof. decide equality. Defined.

Record PairInvPoly : Type := mkPair {
  allocated : Z;
  setflag : table Z;
  cut_global : float;
  offset_flag : Z;
  mix_flag : Z;
  dbl : dfield -> table float
}.

Definition set_allocated (v : Z) (p : PairInvPoly) : PairInvPoly :=
  mkPair v (setflag p) (cut_global p) (offset_flag p) (mix_flag p) (dbl p).
Definition set_cut_global (v : float) (p : PairInvPoly) : PairInvPoly :=
  mkPair (allocated p) (setflag p) v (offset_flag p) (mix_flag p) (dbl p).
Definition set_offset_flag (v : Z) (p : PairInvPoly) : PairInvPoly :=
  mkPair (allocated p) (setflag p) (cut_global p) v (mix_flag p) (dbl p).
Definition set_mix_flag (v : Z) (p : PairInvPoly) : PairInvPoly :=
  mkPair (allocated p) (setflag p) (cut_global p) (offset_flag p) v (dbl p).

(** [setflag[i][j] = v] *)
Definition wr_setflag (i j v : Z) (p : PairInvPoly) : PairInvPoly :=
  mkPair (allocated p) (tset (setflag p) i j v) (cut_global p) (offset_flag p)
         (mix_flag p) (dbl p).

(** [fld[i][j]] *)
Definition rd (p : PairInvPoly) (fld : dfield) (i j : Z) : float := dbl p fld i j.

(** [fld[i][j] = v] *)
Definition wr (fld : dfield) (i j : Z) (v : float) (p : PairInvPoly) : PairInvPoly :=
  mkPair (allocated p) (setflag p) (cut_global p) (offset_flag p) (mix_flag p)
         (fun g => if dfield_eq_dec g fld then tset (dbl p g) i j v else dbl p g).

(** The arrays [memory->create] hands out.  It initialises none of them, so
    what a new array holds is up to the allocator: the content of the [int]
    array and of each [double] array is taken as given. *)
Record Memory : Type := mkMemory {
  created_int : table Z;
  created_double : dfield -> table float
}.

(** [memory->create(setflag,n+1,n+1,"pair:setflag")] *)
Definition create_setflag (memory : Memory) (p : PairInvPoly) : PairInvPoly :=
  mkPair (allocated p) (created_int memory) (cut_global p) (offset_flag p)
         (mix_flag p) (dbl p).

(** [memory->create(fld,n+1,n+1,"pair:fld")] *)
Definition create (memory : Memory) (fld : dfield) (p : PairInvPoly) : PairInvPoly :=
  mkPair (allocated p) (setflag p) (cut_global p) (offset_flag p) (mix_flag p)
         (fun g => if dfield_eq_dec g fld then created_double memory fld else dbl p g).

(** [allocate()]: every table becomes a new array, whatever the object held
    before, and only the flags of the upper triangle are initialised. *)
Definition allocate (memory : Memory) (ntypes : Z) (p : PairInvPoly) : PairInvPoly :=
  let p := set_allocated 1 p in
  let n := ntypes in
  let p := create_setflag memory p in
  let p := for_to 1 n (fun i => for_to i n (fun j => wr_setflag i j 0)) p in
  let p := create memory cutsq p in
  (* the tables of the coefficients *)
  let p := create memory cut p in
  let p := create memory sigma p in
  let p := create memory a2 p in
  let p := create memory a4 p in
  let p := create memory a6 p in
  let p := create memory a8 p in
  let p := create memory a10 p in
  let p := create memory a12 p in
  (* and of the precomputed quantities *)
  let p := create memory inv_poly2 p in
  let p := create memory inv_poly4 p in
  let p := create memory inv_poly6 p in
  let p := create memory inv_poly8 p in
  let p := create memory inv_poly10 p in
  let p := create memory inv_poly12 p in
  let p := create memory dinv_poly2 p in
  let p := create memory dinv_poly4 p in
  let p := create memory dinv_poly6 p in
  let p := create memory dinv_poly8 p in
  let p := create memory dinv_poly10 p in
  let p := create memory dinv_poly12 p in
  let p := create memory offset p in
  p.

(* ================================================================== *)
(** ** Errors *)

Inductive outcome (A : Type) : Type :=
  | Done (a : A)
  | Raised (msg : string).
Arguments Done {A} a.
Arguments Raised {A} msg.

(** A member function that may abort: the result, and the object as the call
    left it. *)
Definition M (A : Type) : Type := PairInvPoly -> outcome A * PairInvPoly.

Definition ret {A : Type} (a : A) : M A := fun p => (Done a, p).
Definition bind {A B : Type} (c : M A) (k : A -> M B) : M B :=
  fun p => match c p with
           | (Done a, p') => k a p'
           | (Raised msg, p') => (Raised msg, p')
           end.
(** [error->all(FLERR,msg)] *)
Definition error_all {A : Type} (msg : string) : M A := fun p => (Raised msg, p).
Definition get : M PairInvPoly := fun p => (Done p, p).
Definition modify (g : PairInvPoly -> PairInvPoly) : M unit := fun p => (Done tt, g p).

Declare Scope pair_scope.
Delimit Scope pair_scope with pair.
Notation "x <- c ;; k" := (bind c (fun x => k))
  (at level 61, c at next level, right associativity) : pair_scope.
Notation "c ;;; k" := (bind c (fun _ => k))
  (at level 61, right associativity) : pair_scope.

(* ================================================================== *)
(** ** Configuration: [settings] and [coeff] *)

Section Configuration.

(** What [memory->create] hands out. *)
Variable memory : Memory.

(** [atom->ntypes] *)
Variable ntypes : Z.

(** [utils::numeric]: the value of a numeric word, [None] where it raises
    an error for a word that is not a number. *)
Variable numeric : string -> option float.

(** The range a word such as [2], [*], [2*] or [1*3] denotes between
    [nmin] and [nmax], before any validation. *)
Variable range_of : string -> Z -> Z -> Z * Z.

Local Open Scope pair_scope.

Definition arg_at (arg : list string) (k : nat) : string := nth k arg EmptyString.

Definition utils_numeric (word : string) : M float :=
  match numeric word with
  | Some v => ret v
  | None => error_all "Expected floating point parameter"
  end.

(** Modelled from the spec: [utils::bounds] is not among the sources; it
    "validates [1 <= range bounds <= ntypes]" and fails the command
    otherwise. *)
Definition utils_bounds (word : string) (nmin nmax : Z) : M (Z * Z) :=
  let '(nlo, nhi) := range_of word nmin nmax in
  if (nlo <? nmin) || (nhi >? nmax)
  then error_all "Numeric index is out of bounds"
  else ret (nlo, nhi).

(** The cutoff sweep of [settings]. *)
Definition reset_cutoffs (p : PairInvPoly) : PairInvPoly :=
  for_to 1 ntypes (fun i =>
    for_to i ntypes (fun j p =>
      if negb (setflag p i j =? 0) then wr cut i j (cut_global p) p else p)) p.

Definition settings (arg : list string) : M unit :=
  let narg := Z.of_nat (List.length arg) in
  if negb (narg =? 1) then error_all "Illegal pair_style command" else
  v <- utils_numeric (arg_at arg 0) ;;
  modify (set_cut_global v) ;;;
  (* reset cutoffs that have been explicitly set *)
  p <- get ;;
  if negb (allocated p =? 0) then modify reset_cutoffs else ret tt.

(** The body of the double loop of [coeff] for one [(i,j)]. *)
Definition coeff_store (sigma_one a2_one a4_one a6_one a8_one a10_one a12_one
                        cut_one : float) (i j : Z)
           (pc : PairInvPoly * Z) : PairInvPoly * Z :=
  let '(p, count) := pc in
  let p := wr sigma i j sigma_one p in
  let p := wr cut i j cut_one p in
  let p := wr a2 i j a2_one p in
  let p := wr a4 i j a4_one p in
  let p := wr a6 i j a6_one p in
  let p := wr a8 i j a8_one p in
  let p := wr a10 i j a10_one p in
  let p := wr a12 i j a12_one p in
  let p := wr_setflag i j 1 p in
  (p, count + 1).

Definition coeff_fill (ilo ihi jlo jhi : Z)
           (sigma_one a2_one a4_one a6_one a8_one a10_one a12_one cut_one : float)
           (p : PairInvPoly) : PairInvPoly * Z :=
  for_to ilo ihi (fun i =>
    for_to (Z.max jlo i) jhi
      (coeff_store sigma_one a2_one a4_one a6_one a8_one a10_one a12_one cut_one i))
    (p, 0).

Definition coeff (arg : list string) : M unit :=
  let narg := Z.of_nat (List.length arg) in
  if (narg <? 9) || (narg >? 10)
  then error_all "Incorrect args for pair coefficients" else
  p <- get ;;
  (if allocated p =? 0 then modify (allocate memory ntypes) else ret tt) ;;;
  (* read i,j atom types *)
  ib <- utils_bounds (arg_at arg 0) 1 ntypes ;;
  jb <- utils_bounds (arg_at arg 1) 1 ntypes ;;
  let '(ilo, ihi) := ib in
  let '(jlo, jhi) := jb in
  sigma_one <- utils_numeric (arg_at arg 2) ;;
  a2_one <- utils_numeric (arg_at arg 3) ;;
  a4_one <- utils_numeric (arg_at arg 4) ;;
  a6_one <- utils_numeric (arg_at arg 5) ;;
  a8_one <- utils_numeric (arg_at arg 6) ;;
  a10_one <- utils_numeric (arg_at arg 7) ;;
  a12_one <- utils_numeric (arg_at arg 8) ;;
  (* if i,j cutoff radius not specified, assign it global cutoff radius *)
  p <- get ;;
  cut_one <- (if narg =? 10 then utils_numeric (arg_at arg 9)
              else ret (cut_global p)) ;;
  p <- get ;;
  let '(p', count) :=
    coeff_fill ilo ihi jlo jhi
               sigma_one a2_one a4_one a6_one a8_one a10_one a12_one cut_one p in
  modify (fun _ => p') ;;;
  if count =? 0 then error_all "Incorrect args for pair coefficients" else ret tt.

End Configuration.

(* ================================================================== *)
(** ** Mixing and precomputation: [init_one] *)

Section Precomputation.

(** [pow] of the C library. *)
Variable pow : float -> float -> float.

(** [Pair::mix_distance] of the base class, which reads the object's
    [mix_flag]. *)
Variable mix_distance : PairInvPoly -> float -> float -> float.

Local Open Scope float_scope.

(** [init_one], block by block as the source lays it out. *)

(** assign mixed parameters if not set *)
Definition init_mix (i j : Z) (p : PairInvPoly) : PairInvPoly :=
  if (setflag p i j =? 0)%Z then
    let p := wr sigma i j (mix_distance p (rd p sigma i i) (rd p sigma j j)) p in
    wr cut i j (mix_distance p (rd p cut i i) (rd p cut j j)) p
  else p.

(** precalculate constant parts of potential *)
Definition init_potential (i j : Z) (p : PairInvPoly) : PairInvPoly :=
  let p := wr inv_poly2 i j (rd p a2 i j * pow (rd p sigma i j) 2) p in
  let p := wr inv_poly4 i j (rd p a4 i j * pow (rd p sigma i j) 4) p in
  let p := wr inv_poly6 i j (rd p a6 i j * pow (rd p sigma i j) 6) p in
  let p := wr inv_poly8 i j (rd p a8 i j * pow (rd p sigma i j) 8) p in
  let p := wr inv_poly10 i j (rd p a10 i j * pow (rd p sigma i j) 10) p in
  wr inv_poly12 i j (rd p a12 i j * pow (rd p sigma i j) 12) p.

(** precalculate constant parts of positive first derivative (for force) *)
Definition init_force (i j : Z) (p : PairInvPoly) : PairInvPoly :=
  let p := wr dinv_poly2 i j (2 * rd p a2 i j * pow (rd p sigma i j) 2) p in
  let p := wr dinv_poly4 i j (4 * rd p a4 i j * pow (rd p sigma i j) 4) p in
  let p := wr dinv_poly6 i j (6 * rd p a6 i j * pow (rd p sigma i j) 6) p in
  let p := wr dinv_poly8 i j (8 * rd p a8 i j * pow (rd p sigma i j) 8) p in
  let p := wr dinv_poly10 i j (10 * rd p a10 i j * pow (rd p sigma i j) 10) p in
  wr dinv_poly12 i j (12 * rd p a12 i j * pow (rd p sigma i j) 12) p.

Definition init_offset (i j : Z) (p : PairInvPoly) : PairInvPoly :=
  if negb (offset_flag p =? 0)%Z && (0 <? rd p cut i j) then
    let ratio := rd p sigma i j / rd p cut i j in
    wr offset i j (pow ratio 2 + pow ratio 4 + pow ratio 6 + pow ratio 8
                   + pow ratio 10 + pow ratio 12) p
  else wr offset i j 0 p.

(** [fld[j][i] = fld[i][j]] *)
Definition mirror (fld : dfield) (i j : Z) (p : PairInvPoly) : PairInvPoly :=
  wr fld j i (rd p fld i j) p.

(** symmetrize interaction *)
Definition symmetrize_potential (i j : Z) (p : PairInvPoly) : PairInvPoly :=
  let p := mirror inv_poly2 i j p in
  let p := mirror inv_poly4 i j p in
  let p := mirror inv_poly6 i j p in
  let p := mirror inv_poly8 i j p in
  let p := mirror inv_poly10 i j p in
  mirror inv_poly12 i j p.

Definition symmetrize_force (i j : Z) (p : PairInvPoly) : PairInvPoly :=
  let p := mirror dinv_poly2 i j p in
  let p := mirror dinv_poly4 i j p in
  let p := mirror dinv_poly6 i j p in
  let p := mirror dinv_poly8 i j p in
  let p := mirror dinv_poly10 i j p in
  mirror dinv_poly12 i j p.

Definition init_one (i j : Z) (p : PairInvPoly) : float * PairInvPoly :=
  let p := init_mix i j p in
  let p := init_potential i j p in
  let p := init_force i j p in
  let p := init_offset i j p in
  let p := symmetrize_potential i j p in
  let p := symmetrize_force i j p in
  let p := mirror offset i j p in
  (rd p cut i j, p).

End Precomputation.

(* ================================================================== *)
(** ** The force kernel: [compute] and [single] *)

(** What [compute] reads through [atom->], [force->] and [list->] (the
    member [list], here [neighlist]). *)
Record Atom : Type := mkAtom {
  atom_x : Z -> Z -> float;
  atom_f : Z -> Z -> float;
  atom_type : Z -> Z;
  atom_nlocal : Z
}.

Record Force : Type := mkForce {
  force_special_lj : Z -> float;
  force_newton_pair : Z
}.

Record NeighList : Type := mkNeighList {
  list_inum : Z;
  list_ilist : Z -> Z;
  list_numneigh : Z -> Z;
  list_firstneigh : Z -> Z -> Z
}.

(** The calls [compute] makes into the base class, which owns the energy and
    virial accumulators. *)
Inductive host_call : Type :=
  | Call_ev_init (eflag vflag : Z)
  | Call_ev_tally (i j nlocal newton_pair : Z)
                  (evdwl ecoul fpair delx dely delz : float)
  | Call_virial_fdotr_compute.

Record World : Type := mkWorld {
  pair : PairInvPoly;
  atom : Atom;
  force : Force;
  neighlist : NeighList;
  evflag : Z;
  vflag_fdotr : Z;
  calls : list host_call
}.

Definition set_f (v : Z -> Z -> float) (w : World) : World :=
  mkWorld (pair w)
          (mkAtom (atom_x (atom w)) v (atom_type (atom w)) (atom_nlocal (atom w)))
          (force w) (neighlist w) (evflag w) (vflag_fdotr w) (calls w).

(** [f[i][k] += v] *)
Definition f_add (i k : Z) (v : float) (w : World) : World :=
  set_f (tset (atom_f (atom w)) i k (atom_f (atom w) i k + v)%float) w.

(** [f[i][k] -= v] *)
Definition f_sub (i k : Z) (v : float) (w : World) : World :=
  set_f (tset (atom_f (atom w)) i k (atom_f (atom w) i k - v)%float) w.

Definition call (c : host_call) (w : World) : World :=
  mkWorld (pair w) (atom w) (force w) (neighlist w) (evflag w) (vflag_fdotr w)
          (calls w ++ [c]).

Section Kernel.

(** [sbmask] and [NEIGHMASK] of the host: the selector and the index bits
    of a neighbor entry. *)
Variable sbmask : Z -> Z.
Variable NEIGHMASK : Z.

(** The flags [evflag] and [vflag_fdotr] that [ev_init(eflag,vflag)] of the
    base class leaves. *)
Variable ev_flags : Z -> Z -> Z * Z.

Local Open Scope float_scope.

Definition ev_init (eflag vflag : Z) (w : World) : World :=
  let '(ev, fdotr) := ev_flags eflag vflag in
  call (Call_ev_init eflag vflag)
       (mkWorld (pair w) (atom w) (force w) (neighlist w) ev fdotr (calls w)).

(** The body of the loop over [jj], for the atom [i] at [xtmp,ytmp,ztmp] of
    type [itype]; [evdwl] is carried from one pair to the next. *)
Definition compute_pair (eflag i : Z) (xtmp ytmp ztmp : float) (itype jj : Z)
           (we : World * float) : World * float :=
  let '(w, evdwl) := we in
  let x := atom_x (atom w) in
  let type := atom_type (atom w) in
  let nlocal := atom_nlocal (atom w) in
  let special_lj := force_special_lj (force w) in
  let newton_pair := force_newton_pair (force w) in
  let j := list_firstneigh (neighlist w) i jj in
  let factor := special_lj (sbmask j) in
  let j := Z.land j NEIGHMASK in
  let delx := xtmp - x j 0%Z in
  let dely := ytmp - x j 1%Z in
  let delz := ztmp - x j 2%Z in
  let rsq := delx*delx + dely*dely + delz*delz in
  let jtype := type j in
  if rsq <? rd (pair w) cutsq itype jtype then
    let r2inv := 1 / rsq in
    let r4inv := r2inv * r2inv in
    let r6inv := r4inv * r2inv in
    let r8inv := r6inv * r2inv in
    let r10inv := r8inv * r2inv in
    let r12inv := r10inv * r2inv in
    let forceinvpoly :=
      rd (pair w) dinv_poly2 itype jtype * r2inv
      + rd (pair w) dinv_poly4 itype jtype * r4inv
      + rd (pair w) dinv_poly6 itype jtype * r6inv
      + rd (pair w) dinv_poly8 itype jtype * r8inv
      + rd (pair w) dinv_poly10 itype jtype * r10inv
      + rd (pair w) dinv_poly12 itype jtype * r12inv in
    let fpair := factor * forceinvpoly * r2inv in
    let w := f_add i 0 (delx * fpair) w in
    let w := f_add i 1 (dely * fpair) w in
    let w := f_add i 2 (delz * fpair) w in
    let w :=
      if negb (newton_pair =? 0)%Z || (j <? nlocal)%Z then
        let w := f_sub j 0 (delx * fpair) w in
        let w := f_sub j 1 (dely * fpair) w in
        f_sub j 2 (delz * fpair) w
      else w in
    let evdwl :=
      if negb (eflag =? 0)%Z then
        let evdwl :=
          rd (pair w) inv_poly2 itype jtype * r2inv
          + rd (pair w) inv_poly4 itype jtype * r4inv
          + rd (pair w) inv_poly6 itype jtype * r6inv
          + rd (pair w) inv_poly8 itype jtype * r8inv
          + rd (pair w) inv_poly10 itype jtype * r10inv
          + rd (pair w) inv_poly12 itype jtype * r12inv
          - rd (pair w) offset itype jtype in
        evdwl * factor
      else evdwl in
    let w :=
      if negb (evflag w =? 0)%Z
      then call (Call_ev_tally i j nlocal newton_pair evdwl 0 fpair delx dely delz) w
      else w in
    (w, evdwl)
  else (w, evdwl).

(** The body of the loop over [ii]. *)
Definition compute_atom (eflag ii : Z) (we : World * float) : World * float :=
  let w := fst we in
  let i := list_ilist (neighlist w) ii in
  let xtmp := atom_x (atom w) i 0%Z in
  let ytmp := atom_x (atom w) i 1%Z in
  let ztmp := atom_x (atom w) i 2%Z in
  let itype := atom_type (atom w) i in
  let jnum := list_numneigh (neighlist w) i in
  for_below 0 jnum (compute_pair eflag i xtmp ytmp ztmp itype) we.

Definition compute (eflag vflag : Z) (w : World) : World :=
  let evdwl := 0 in
  let w := ev_init eflag vflag w in
  let inum := list_inum (neighlist w) in
  (* loop over neighbors of my atoms *)
  let '(w, _) := for_below 0 inum (compute_atom eflag) (w, evdwl) in
  if negb (vflag_fdotr w =? 0)%Z then call Call_virial_fdotr_compute w else w.

(** [single]: the energy it returns and the [fforce] it writes, with the
    object it leaves. *)
Definition single (i j itype jtype : Z) (rsq factor_coul factor_lj : float)
           (p : PairInvPoly) : (float * float) * PairInvPoly :=
  let factor := factor_lj in
  let r2inv := 1 / rsq in
  let r4inv := r2inv * r2inv in
  let r6inv := r4inv * r2inv in
  let r8inv := r6inv * r2inv in
  let r10inv := r8inv * r2inv in
  let r12inv := r10inv * r2inv in
  let forceinvpoly :=
    rd p dinv_poly2 itype jtype * r2inv
    + rd p dinv_poly4 itype jtype * r4inv
    + rd p dinv_poly6 itype jtype * r6inv
    + rd p dinv_poly8 itype jtype * r8inv
    + rd p dinv_poly10 itype jtype * r10inv
    + rd p dinv_poly12 itype jtype * r12inv in
  let fforce := factor * forceinvpoly * r2inv in
  let phi :=
    rd p inv_poly2 itype jtype * r2inv
    + rd p inv_poly4 itype jtype * r4inv
    + rd p inv_poly6 itype jtype * r6inv
    + rd p inv_poly8 itype jtype * r8inv
    + rd p inv_poly10 itype jtype * r10inv
    + rd p inv_poly12 itype jtype * r12inv
    - rd p offset itype jtype in
  ((factor * phi, fforce), p).

End Kernel.

(* ================================================================== *)
(** ** The restart stream: [write_restart] and [read_restart] *)

(** A byte of the stream is a [Z] in [0, 255]; the stream holds the object
    representation of each value written, least significant byte first
    (4 bytes for an [int], 8 for a [double]). *)
Definition stream : Type := list Z.

Fixpoint le_bytes (n : nat) (v : Z) : stream :=
  match n with
  | O => []
  | Datatypes.S k => (v mod 256) :: le_bytes k (v / 256)
  end.

Fixpoint le_value (bs : stream) : Z :=
  match bs with
  | [] => 0
  | b :: rest => b + 256 * le_value rest
  end.

Definition int_bytes (v : Z) : stream := le_bytes 4 (v mod 2 ^ 32).

Definition int_of_bytes (bs : stream) : Z :=
  let u := le_value bs in
  if u <? 2 ^ 31 then u else u - 2 ^ 32.

(** The binary64 encoding: sign, 11 bits of biased exponent, 52 of fraction. *)
Definition double_bits (d : float) : Z :=
  let sign (s : bool) := if s then 2 ^ 63 else 0 in
  match Prim2SF d with
  | S754_zero s => sign s
  | S754_infinity s => sign s + 2047 * 2 ^ 52
  | S754_nan => 2047 * 2 ^ 52 + 2 ^ 51
  | S754_finite s m e =>
      if Zpos m <? 2 ^ 52 then sign s + Zpos m
      else sign s + (e + 1075) * 2 ^ 52 + (Zpos m - 2 ^ 52)
  end.

Definition bits_double (b : Z) : float :=
  let s := negb (b / 2 ^ 63 =? 0) in
  let ex := (b / 2 ^ 52) mod 2048 in
  let frac := b mod 2 ^ 52 in
  let finite (m e : Z) :=
    match m with
    | Zpos q => SF2Prim (S754_finite s q e)
    | _ => SF2Prim (S754_zero s)
    end in
  if ex =? 2047 then
    (if frac =? 0 then SF2Prim (S754_infinity s) else SF2Prim S754_nan)
  else if ex =? 0 then finite frac (-1074)
  else finite (frac + 2 ^ 52) (ex - 1075).

Definition double_bytes (d : float) : stream := le_bytes 8 (double_bits d).
Definition double_of_bytes (bs : stream) : float := bits_double (le_value bs).

(** [fwrite(&v,sizeof(int),1,fp)] and [fwrite(&v,sizeof(double),1,fp)] *)
Definition fwrite_int (v : Z) (fp : stream) : stream := fp ++ int_bytes v.
Definition fwrite_double (v : float) (fp : stream) : stream := fp ++ double_bytes v.

Definition write_restart_settings (p : PairInvPoly) (fp : stream) : stream :=
  let fp := fwrite_double (cut_global p) fp in
  let fp := fwrite_int (offset_flag p) fp in
  fwrite_int (mix_flag p) fp.

Definition write_restart (ntypes : Z) (p : PairInvPoly) (fp : stream) : stream :=
  let fp := write_restart_settings p fp in
  for_to 1 ntypes (fun i =>
    for_to i ntypes (fun j fp =>
      let fp := fwrite_int (setflag p i j) fp in
      if negb (setflag p i j =? 0) then
        let fp := fwrite_double (rd p sigma i j) fp in
        fwrite_double (rd p cut i j) fp
      else fp)) fp.

Section Reader.
Local Open Scope pair_scope.

(** Modelled from the spec: [utils::sfread] is not among the sources; a
    "truncated ... checkpoint stream" is fatal and "aborts restart".  It
    hands back the [size] bytes read and the rest of the stream. *)
Definition sfread (size : nat) (fp : stream) : M (stream * stream) :=
  if (List.length fp <? size)%nat
  then error_all "Unexpected end of file while reading restart"
  else ret (firstn size fp, skipn size fp).

Definition sfread_int (fp : stream) : M (Z * stream) :=
  r <- sfread 4 fp ;; ret (int_of_bytes (fst r), snd r).

Definition sfread_double (fp : stream) : M (float * stream) :=
  r <- sfread 8 fp ;; ret (double_of_bytes (fst r), snd r).

(** The loops of the reader, whose body may abort. *)
Fixpoint iter_up_M {A : Type} (n : nat) (i : Z) (body : Z -> A -> M A) (a : A)
  : M A :=
  match n with
  | O => ret a
  | Datatypes.S k => a' <- body i a ;; iter_up_M k (i + 1) body a'
  end.

Definition for_to_M {A : Type} (lo hi : Z) (body : Z -> A -> M A) (a : A) : M A :=
  iter_up_M (Z.to_nat (hi + 1 - lo)) lo body a.

(** [read_restart_settings], on the reading process ([comm->me == 0]); with
    one process the broadcasts leave the values as read. *)
Definition read_restart_settings (fp : stream) : M stream :=
  r <- sfread_double fp ;; modify (set_cut_global (fst r)) ;;;
  r <- sfread_int (snd r) ;; modify (set_offset_flag (fst r)) ;;;
  r <- sfread_int (snd r) ;; modify (set_mix_flag (fst r)) ;;;
  ret (snd r).

(** [sfread(&fld[i][j],sizeof(double),1,fp)] *)
Definition read_entry (fld : dfield) (i j : Z) (fp : stream) : M stream :=
  r <- sfread_double fp ;; modify (wr fld i j (fst r)) ;;; ret (snd r).

Definition read_restart (memory : Memory) (ntypes : Z) (fp : stream) : M stream :=
  fp <- read_restart_settings fp ;;
  modify (allocate memory ntypes) ;;;
  for_to_M 1 ntypes (fun i =>
    for_to_M i ntypes (fun j fp =>
      r <- sfread_int fp ;; modify (wr_setflag i j (fst r)) ;;;
      let fp := snd r in
      p <- get ;;
      if negb (setflag p i j =? 0) then
        fp <- read_entry sigma i j fp ;;
        fp <- read_entry a2 i j fp ;;
        fp <- read_entry a4 i j fp ;;
        fp <- read_entry a6 i j fp ;;
        fp <- read_entry a8 i j fp ;;
        fp <- read_entry a10 i j fp ;;
        fp <- read_entry a12 i j fp ;;
        read_entry cut i j fp
      else ret fp)) fp.

End Reader.

(* ================================================================== *)
(** ** Instances of the external functions, to run the model *)

(** Correctly rounded [x^y] for the exponents the program uses (positive even
    integers): the value a C library returns whenever the power is exactly
    representable; [pow(1,y)] is 1 for every [y] (ISO C, Annex F).  Other
    exponents are outside this instance, which then answers NaN. *)
Definition pow_exact (x y : float) : float :=
  if (x =? 1)%float then 1%float else
  match Prim2SF y with
  | S754_finite false my ey =>
      let n := if 0 <=? ey then Zpos my * 2 ^ ey
               else if Zpos my mod 2 ^ (- ey) =? 0 then Zpos my / 2 ^ (- ey)
               else 1 in
      if Z.even n then
        match Prim2SF x with
        | S754_zero _ => 0%float
        | S754_infinity _ => infinity
        | S754_nan => nan
        | S754_finite _ mx ex =>
            SF2Prim (binary_normalize prec emax (Zpos mx ^ n) (ex * n) false)
        end
      else nan
  | _ => nan
  end.

(** Geometric mixing. *)
Definition mix_geometric (_ : PairInvPoly) (u v : float) : float :=
  sqrt (u * v)%float.

(** The words of the example commands. *)
Definition numeric_words (word : string) : option float :=
  if String.eqb word "0.0" then Some 0%float
  else if String.eqb word "1.0" then Some 1%float
  else if String.eqb word "2.5" then Some 2.5%float
  else if String.eqb word "3.0" then Some 3%float
  else None.

Definition range_words (word : string) (nmin nmax : Z) : Z * Z :=
  if String.eqb word "*" then (nmin, nmax)
  else if String.eqb word "0" then (0, 0)
  else if String.eqb word "1" then (1, 1)
  else if String.eqb word "2" then (2, 2)
  else if String.eqb word "3" then (3, 3)
  else (-1, -1).

(** An object before [allocate]: no table yet, every cell reads zero. *)
Definition fresh : PairInvPoly :=
  mkPair 0 (fun _ _ => 0) 0%float 0 0 (fun _ _ _ => 0%float).

(** An allocator whose new arrays read zero, as pages fresh from the system
    do. *)
Definition zero_filled : Memory :=
  mkMemory (fun _ _ => 0) (fun _ _ _ => 0%float).

(** An allocator whose new arrays still hold leftovers: 7 in every [int]
    cell, 7.5 in every [double] cell. *)
Definition leftover : Memory :=
  mkMemory (fun _ _ => 7) (fun _ _ _ => 7.5%float).

(* ================================================================== *)
(** ** The vocabulary of the properties *)

(** The six terms of the polynomial: the exponent, the shape coefficient and
    the two tables derived from it. *)
Definition poly_terms : list (float * dfield * dfield * dfield) :=
  [ (2%float, a2, inv_poly2, dinv_poly2);
    (4%float, a4, inv_poly4, dinv_poly4);
    (6%float, a6, inv_poly6, dinv_poly6);
    (8%float, a8, inv_poly8, dinv_poly8);
    (10%float, a10, inv_poly10, dinv_poly10);
    (12%float, a12, inv_poly12, dinv_poly12) ].

Definition potential_fields : list dfield :=
  [inv_poly2; inv_poly4; inv_poly6; inv_poly8; inv_poly10; inv_poly12].

Definition force_fields : list dfield :=
  [dinv_poly2; dinv_poly4; dinv_poly6; dinv_poly8; dinv_poly10; dinv_poly12].

(** The tables [init_one] mirrors. *)
Definition derived_fields : list dfield :=
  potential_fields ++ force_fields ++ [offset].

(** The value the spec gives the shift: the unshifted polynomial at
    [r = cut], the sum over [k] of [a_k * (sigma/cut)^k]. *)
Definition potential_at_cutoff (pow : float -> float -> float)
           (p : PairInvPoly) (i j : Z) : float :=
  (let ratio := rd p sigma i j / rd p cut i j in
   rd p a2 i j * pow ratio 2 + rd p a4 i j * pow ratio 4
   + rd p a6 i j * pow ratio 6 + rd p a8 i j * pow ratio 8
   + rd p a10 i j * pow ratio 10 + rd p a12 i j * pow ratio 12)%float.

(** One configured pair [(i,j)] of an object, given by its fields. *)
Definition with_pair (i j : Z) (sigma_one a2_one a4_one a6_one a8_one a10_one
                                a12_one cut_one : float) (p : PairInvPoly)
  : PairInvPoly :=
  fst (coeff_store sigma_one a2_one a4_one a6_one a8_one a10_one a12_one cut_one
                   i j (p, 0)).

(** The scalar members and the flags of two objects agree. *)
Definition same_scalars (p q : PairInvPoly) : Prop :=
  allocated q = allocated p /\ setflag q = setflag p
  /\ cut_global q = cut_global p /\ offset_flag q = offset_flag p
  /\ mix_flag q = mix_flag p.

(** One row of the sweep: the inner loop of [settings] for the type [i]. *)
Definition reset_row (ntypes i : Z) (p : PairInvPoly) : PairInvPoly :=
  for_to i ntypes (fun j p =>
    if negb (setflag p i j =? 0) then wr cut i j (cut_global p) p else p) p.

(** The pairs the sweep of [settings] visits and overwrites. *)
Definition swept (ntypes : Z) (p : PairInvPoly) (i j : Z) : Prop :=
  1 <= i <= j /\ j <= ntypes /\ setflag p i j <> 0.

(** The ranges of a [coeff] command hold no pair of the upper triangle. *)
Definition no_pair (ib jb : Z * Z) : Prop :=
  forall i j, fst ib <= i <= snd ib -> fst jb <= j <= snd jb -> ~ i <= j.

(** A range that leaves [1 .. ntypes]. *)
Definition out_of_range (ntypes : Z) (b : Z * Z) : Prop := fst b < 1 \/ snd b > ntypes.

(** The object a rejected [coeff] leaves: the one it was given, with its
    tables allocated if the call got as far as allocating them. *)
Definition rejected_state (memory : Memory) (ntypes : Z) (arg : list string)
           (p : PairInvPoly) : PairInvPoly :=
  let narg := Z.of_nat (List.length arg) in
  if (narg <? 9) || (narg >? 10) then p
  else if allocated p =? 0 then allocate memory ntypes p else p.

(** Everything of the world but the forces and the calls made. *)
Definition same_inputs (w w' : World) : Prop :=
  pair w' = pair w
  /\ atom_x (atom w') = atom_x (atom w)
  /\ atom_type (atom w') = atom_type (atom w)
  /\ atom_nlocal (atom w') = atom_nlocal (atom w)
  /\ force w' = force w
  /\ neighlist w' = neighlist w
  /\ evflag w' = evflag w
  /\ vflag_fdotr w' = vflag_fdotr w.

(** What the kernel does with a pair once its energy and its
    force-per-distance are known: the force on [i], the reaction on [j] when
    it is applied here, and the tally. *)
Definition deposit (i j : Z) (delx dely delz evdwl fpair : float) (w : World)
  : World :=
  let nlocal := atom_nlocal (atom w) in
  let newton_pair := force_newton_pair (force w) in
  let w := f_add i 0 (delx * fpair)%float w in
  let w := f_add i 1 (dely * fpair)%float w in
  let w := f_add i 2 (delz * fpair)%float w in
  let w :=
    if negb (newton_pair =? 0) || (j <? nlocal) then
      let w := f_sub j 0 (delx * fpair)%float w in
      let w := f_sub j 1 (dely * fpair)%float w in
      f_sub j 2 (delz * fpair)%float w
    else w in
  if negb (evflag w =? 0)
  then call (Call_ev_tally i j nlocal newton_pair evdwl 0 fpair delx dely delz) w
  else w.

(** The neighbor [jj] of atom [i]: its index, its exclusion factor, the
    separation from the point [xtmp,ytmp,ztmp] and its square, as the kernel
    computes them. *)
Record candidate : Type := mkCandidate {
  cand_j : Z;
  cand_factor : float;
  cand_delx : float;
  cand_dely : float;
  cand_delz : float;
  cand_rsq : float
}.

Definition candidate_of (sbmask : Z -> Z) (NEIGHMASK : Z) (w : World)
           (i : Z) (xtmp ytmp ztmp : float) (jj : Z) : candidate :=
  let j0 := list_firstneigh (neighlist w) i jj in
  let j := Z.land j0 NEIGHMASK in
  let delx := (xtmp - atom_x (atom w) j 0)%float in
  let dely := (ytmp - atom_x (atom w) j 1)%float in
  let delz := (ztmp - atom_x (atom w) j 2)%float in
  mkCandidate j (force_special_lj (force w) (sbmask j0)) delx dely delz
              (delx * delx + dely * dely + delz * delz)%float.

(** Modelled from the spec: [Pair::init] of the base class is not among the
    sources; "[cutsq[i][j] = cut[i][j]^2]", from the cutoff [init_one]
    returns, for the pair and its mirror. *)
Definition resolve_pair (pow : float -> float -> float)
           (mix_distance : PairInvPoly -> float -> float -> float)
           (i j : Z) (p : PairInvPoly) : PairInvPoly :=
  let '(c, p) := init_one pow mix_distance i j p in
  wr cutsq j i (c * c)%float (wr cutsq i j (c * c)%float p).

(** One type with [sigma = 1], [a2 = 1], [a4 = ... = a12 = 0] and the cutoff
    [cut_one], no shift; particle 1 at [(1,0,0)] with particle 0, at the
    origin, as its only neighbor; every exclusion factor 1; no force yet. *)
Definition two_particles_with_cut (pow : float -> float -> float)
           (mix_distance : PairInvPoly -> float -> float -> float)
           (cut_one : float) : World :=
  mkWorld (resolve_pair pow mix_distance 1 1
             (with_pair 1 1 1 1 0 0 0 0 0 cut_one fresh))
          (mkAtom (fun a k => if (a =? 1) && (k =? 0) then 1%float else 0%float)
                  (fun _ _ => 0%float) (fun _ => 1) 2)
          (mkForce (fun _ => 1%float) 1)
          (mkNeighList 1 (fun _ => 1) (fun a => if a =? 1 then 1 else 0)
                       (fun _ _ => 0))
          0 0 [].

(** The scenario of the spec: [cut = 2.5]. *)
Definition two_particles (pow : float -> float -> float)
           (mix_distance : PairInvPoly -> float -> float -> float) : World :=
  two_particles_with_cut pow mix_distance 2.5.

(** Instances of the host's neighbor encoding and flags, to run the kernel. *)
Definition sbmask_30 (j : Z) : Z := Z.land (Z.shiftr j 30) 3.
Definition NEIGHMASK_30 : Z := 2 ^ 30 - 1.
Definition ev_flags_energy (eflag vflag : Z) : Z * Z :=
  (if (eflag =? 0) && (vflag =? 0) then 0 else 1, 0).

(** The tables of the scenario, at the pair [(1,1)]. *)
Definition two_particles_tables (P : PairInvPoly) : Prop :=
  rd P cutsq 1 1 = 6.25%float
  /\ Forall (fun '(g, v) => rd P g 1 1 = v)
            [ (inv_poly2, 1); (inv_poly4, 0); (inv_poly6, 0);
              (inv_poly8, 0); (inv_poly10, 0); (inv_poly12, 0);
              (dinv_poly2, 2); (dinv_poly4, 0); (dinv_poly6, 0);
              (dinv_poly8, 0); (dinv_poly10, 0); (dinv_poly12, 0);
              (offset, 0) ]%float.

(* ================================================================== *)
(** ** The vocabulary of the further properties *)






(** The tables [coeff] fills with the shape of the polynomial. *)
Definition coefficient_fields : list dfield := [a2; a4; a6; a8; a10; a12].

(** The calls a pass ends with when it tallies no pair. *)
Definition calls_without_tally (ev_flags : Z -> Z -> Z * Z) (eflag vflag : Z)
  : list host_call :=
  Call_ev_init eflag vflag
  :: (if negb (snd (ev_flags eflag vflag) =? 0)
      then [Call_virial_fdotr_compute] else []).

(** The candidate [jj] of the atom [ii] of the list fails the cutoff test. *)
Definition beyond_cutoff (sbmask : Z -> Z) (NEIGHMASK : Z) (w : World)
           (ii jj : Z) : Prop :=
  let i := list_ilist (neighlist w) ii in
  let c := candidate_of sbmask NEIGHMASK w i
             (atom_x (atom w) i 0) (atom_x (atom w) i 1) (atom_x (atom w) i 2) jj in
  (cand_rsq c <? rd (pair w) cutsq (atom_type (atom w) i)
                    (atom_type (atom w) (cand_j c)))%float = false.

(** A value that fits a C [int]. *)
Definition int_range (v : Z) : Prop := - 2 ^ 31 <= v < 2 ^ 31.

(** The object [read_restart_settings] leaves when it reads the settings
    [cg], [oflag], [mflag]. *)
Definition with_settings (cg : float) (oflag mflag : Z) (q : PairInvPoly)
  : PairInvPoly :=
  set_mix_flag mflag (set_offset_flag oflag (set_cut_global cg q)).

(** The number of pairs [(i,j)], [i <= j <= n], of the [m] rows from [i0]. *)
Fixpoint rows_cells (n : Z) (m : nat) (i0 : Z) : nat :=
  match m with
  | O => O
  | S k => (Z.to_nat (n + 1 - i0) + rows_cells n k (i0 + 1))%nat
  end.

(** What a tally made by a pass over the world [w] carries: no Coulomb
    energy, the host's [nlocal] and [newton_pair], the force-per-distance
    [single] writes for the types of the two atoms, the squared length of the
    separation tallied and one of the exclusion factors, and, when energy is
    asked for, the energy [single] returns for them. *)
Definition tally_of_single (eflag : Z) (w : World) (c : host_call) : Prop :=
  match c with
  | Call_ev_tally i j nlocal newton_pair evdwl ecoul fpair delx dely delz =>
      ecoul = 0%float
      /\ nlocal = atom_nlocal (atom w)
      /\ newton_pair = force_newton_pair (force w)
      /\ exists k : Z,
           let r := fst (single i j (atom_type (atom w) i) (atom_type (atom w) j)
                                (delx * delx + dely * dely + delz * delz)%float
                                1%float (force_special_lj (force w) k) (pair w)) in
           fpair = snd r /\ (eflag <> 0 -> evdwl = fst r)
  | _ => True
  end.

(* ================================================================== *)
(** ** Facts about binary64 arithmetic used by the proofs *)

Module Dbl.

(** IEEE multiplication does not depend on the order of its operands. *)
Lemma mul_comm (x y : float) : (x * y = y * x)%float.
Proof.
  apply Prim2SF_inj. rewrite !mul_spec. unfold SF64mul.
  destruct (Prim2SF x) as [sx|sx| |sx mx ex], (Prim2SF y) as [sy|sy| |sy my ey];
    simpl; try reflexivity; try (now rewrite xorb_comm).
  now rewrite xorb_comm, Pos.mul_comm, Z.add_comm.
Qed.

Lemma compare_cont_Eq_antisym (p q : positive) :
  Pos.compare_cont Eq q p = CompOpp (Pos.compare_cont Eq p q).
Proof. apply (Pos.compare_antisym p q). Qed.

(** Swapping the operands of the specification-level comparison flips its
    answer. *)
Lemma SFcompare_antisym (u v : spec_float) (c : comparison) :
  SFcompare u v = Some c -> SFcompare v u = Some (CompOpp c).
Proof.
  destruct u as [su|su| |su mu eu], v as [sv|sv| |sv mv ev]; simpl;
    intros H; try discriminate; injection H as <-;
    try (destruct su; reflexivity); try (destruct sv; reflexivity);
    try (destruct su, sv; reflexivity).
  destruct su, sv; try reflexivity;
    rewrite (Z.compare_antisym eu ev);
    destruct (eu ?= ev)%Z; simpl; try reflexivity;
    rewrite compare_cont_Eq_antisym;
    destruct (Pos.compare_cont Eq mu mv); reflexivity.
Qed.

(** [c <= r] (C's [r >= c]) rules out [r < c]. *)
Lemma leb_not_ltb (c r : float) : (c <=? r)%float = true -> (r <? c)%float = false.
Proof.
  rewrite leb_spec, ltb_spec. unfold SFleb, SFltb.
  destruct (SFcompare (Prim2SF c) (Prim2SF r)) as [k|] eqn:E; [|discriminate].
  rewrite (SFcompare_antisym _ _ _ E). destruct k; simpl; congruence.
Qed.

(** [r == c] rules out [r < c]. *)
Lemma eqb_not_ltb (r c : float) : (r =? c)%float = true -> (r <? c)%float = false.
Proof.
  rewrite eqb_spec, ltb_spec. unfold SFeqb, SFltb.
  destruct (SFcompare (Prim2SF r) (Prim2SF c)) as [[]|]; congruence.
Qed.

End Dbl.

(* ================================================================== *)
(** ** Reasoning about loops *)

Section LoopFacts.
Context {S : Type}.
Implicit Types (body : Z -> S -> S) (s : S).

Lemma iter_up_invariant (P : Z -> S -> Prop) body (n : nat) :
  forall i s,
    P i s ->
    (forall k t, i <= k < i + Z.of_nat n -> P k t -> P (k + 1) (body k t)) ->
    P (i + Z.of_nat n) (iter_up n i body s).
Proof.
  induction n as [|n IH]; intros i s Hs Hstep.
  - simpl. now rewrite Z.add_0_r.
  - cbn [iter_up].
    replace (i + Z.of_nat (Datatypes.S n)) with ((i + 1) + Z.of_nat n) by lia.
    apply IH.
    + apply Hstep; [lia | exact Hs].
    + intros k t Hk. apply Hstep. lia.
Qed.

(** The invariant rule of [for (k = lo; k <= hi; k++)]. *)
Lemma for_to_invariant (P : Z -> S -> Prop) lo hi body s :
  lo <= hi + 1 ->
  P lo s ->
  (forall k t, lo <= k <= hi -> P k t -> P (k + 1) (body k t)) ->
  P (hi + 1) (for_to lo hi body s).
Proof.
  intros Hle Hs Hstep. unfold for_to.
  replace (hi + 1) with (lo + Z.of_nat (Z.to_nat (hi + 1 - lo))) at 1 by lia.
  apply iter_up_invariant; [exact Hs|].
  intros k t Hk. apply Hstep. lia.
Qed.

Lemma for_to_empty lo hi body s : hi < lo -> for_to lo hi body s = s.
Proof.
  intros H. unfold for_to. now replace (Z.to_nat (hi + 1 - lo)) with O by lia.
Qed.

(** A property every iteration keeps is kept by the loop. *)
Lemma for_to_preserves (P : S -> Prop) lo hi body s :
  P s ->
  (forall k t, lo <= k <= hi -> P t -> P (body k t)) ->
  P (for_to lo hi body s).
Proof.
  intros Hs Hstep.
  destruct (Z_lt_le_dec hi lo) as [Hlt|Hle].
  - now rewrite for_to_empty.
  - apply (for_to_invariant (fun _ t => P t)); [lia | exact Hs | exact Hstep].
Qed.

Lemma for_below_preserves (P : S -> Prop) lo hi body s :
  P s ->
  (forall k t, lo <= k < hi -> P t -> P (body k t)) ->
  P (for_below lo hi body s).
Proof.
  intros Hs Hstep.
  unfold for_below. replace (hi - lo) with (hi - 1 + 1 - lo) by lia.
  fold (for_to lo (hi - 1) body s).
  apply for_to_preserves; [exact Hs|].
  intros k t Hk. apply Hstep. lia.
Qed.

End LoopFacts.

(* ================================================================== *)
(** ** Reading a table after a write *)

Lemma tset_eq {A : Type} (t : table A) (i j : Z) (v : A) : tset t i j v i j = v.
Proof. unfold tset. now rewrite !Z.eqb_refl. Qed.

Lemma tset_neq {A : Type} (t : table A) (i j i' j' : Z) (v : A) :
  i' <> i \/ j' <> j -> tset t i j v i' j' = t i' j'.
Proof.
  intros H. unfold tset.
  destruct (Z.eqb_spec i' i), (Z.eqb_spec j' j); simpl; try reflexivity. lia.
Qed.

Lemma rd_wr_eq (fld : dfield) (i j : Z) (v : float) (p : PairInvPoly) :
  rd (wr fld i j v p) fld i j = v.
Proof.
  unfold rd, wr; simpl. destruct (dfield_eq_dec fld fld); [|congruence].
  apply tset_eq.
Qed.

Lemma rd_wr_field (fld g : dfield) (i j i' j' : Z) (v : float) (p : PairInvPoly) :
  g <> fld -> rd (wr fld i j v p) g i' j' = rd p g i' j'.
Proof.
  intros H. unfold rd, wr; simpl. now destruct (dfield_eq_dec g fld).
Qed.

Lemma rd_wr_cell (fld g : dfield) (i j i' j' : Z) (v : float) (p : PairInvPoly) :
  i' <> i \/ j' <> j -> rd (wr fld i j v p) g i' j' = rd p g i' j'.
Proof.
  intros H. unfold rd, wr; simpl. destruct (dfield_eq_dec g fld); [|reflexivity].
  now apply tset_neq.
Qed.

(** A write followed by a read of the mirrored cell of the same table. *)
Lemma rd_wr_mirror (fld : dfield) (i j : Z) (p : PairInvPoly) :
  rd (wr fld j i (rd p fld i j) p) fld i j = rd p fld i j.
Proof.
  destruct (Z.eq_dec i j) as [->|Hne].
  - apply rd_wr_eq.
  - apply rd_wr_cell. lia.
Qed.

(* ================================================================== *)
(** ** [init_one]: what each block writes *)

Ltac in_cases H :=
  repeat (destruct H as [H|H]; [try (inversion H; subst)|]);
  try contradiction.

Ltac not_in := simpl; intuition discriminate.

(** Pushes reads through the writes of a block, a cell or a table apart. *)
Ltac read_through :=
  repeat first
    [ rewrite rd_wr_eq
    | rewrite rd_wr_field by discriminate
    | rewrite rd_wr_cell by lia ].

Section InitOneFacts.

Variable pow : float -> float -> float.

Local Open Scope float_scope.

Lemma mirror_read_source fld g i j p :
  rd (mirror fld i j p) g i j = rd p g i j.
Proof.
  unfold mirror. destruct (dfield_eq_dec g fld) as [->|Hne].
  - apply rd_wr_mirror.
  - now apply rd_wr_field.
Qed.

Lemma mirror_read_target fld i j p :
  rd (mirror fld i j p) fld j i = rd p fld i j.
Proof. apply rd_wr_eq. Qed.

Lemma mirror_other_field fld g i j a b p :
  g <> fld -> rd (mirror fld i j p) g a b = rd p g a b.
Proof. intros H. now apply rd_wr_field. Qed.

Lemma mirror_other_cell fld g i j a b p :
  (a <> j \/ b <> i)%Z -> rd (mirror fld i j p) g a b = rd p g a b.
Proof. intros H. now apply rd_wr_cell. Qed.

(** *** The mixing block *)

Lemma init_mix_frame mix_distance i j p g a b :
  (g <> sigma /\ g <> cut) \/ (a <> i \/ b <> j)%Z ->
  rd (init_mix mix_distance i j p) g a b = rd p g a b.
Proof.
  intros H. unfold init_mix. destruct (setflag p i j =? 0)%Z; [|reflexivity].
  cbv zeta. destruct H as [[Hs Hc]|H].
  - now rewrite !rd_wr_field.
  - now rewrite !rd_wr_cell.
Qed.

Lemma init_mix_offset_flag mix_distance i j p : offset_flag (init_mix mix_distance i j p) = offset_flag p.
Proof. unfold init_mix. now destruct (setflag p i j =? 0)%Z. Qed.

(** *** The two precalculation blocks *)

Lemma init_potential_frame i j p g a b :
  ~ In g potential_fields -> rd (init_potential pow i j p) g a b = rd p g a b.
Proof.
  intros H. unfold init_potential. cbv zeta.
  rewrite !rd_wr_field; [reflexivity|..]; intros ->; apply H; simpl; tauto.
Qed.

Lemma init_potential_value i j p k a P F :
  In (k, a, P, F) poly_terms ->
  rd (init_potential pow i j p) P i j = rd p a i j * pow (rd p sigma i j) k.
Proof.
  intros H. unfold init_potential. cbv zeta.
  in_cases H; read_through; reflexivity.
Qed.

Lemma init_potential_offset_flag i j p :
  offset_flag (init_potential pow i j p) = offset_flag p.
Proof. reflexivity. Qed.

Lemma init_force_frame i j p g a b :
  ~ In g force_fields -> rd (init_force pow i j p) g a b = rd p g a b.
Proof.
  intros H. unfold init_force. cbv zeta.
  rewrite !rd_wr_field; [reflexivity|..]; intros ->; apply H; simpl; tauto.
Qed.

Lemma init_force_value i j p k a P F :
  In (k, a, P, F) poly_terms ->
  rd (init_force pow i j p) F i j = k * rd p a i j * pow (rd p sigma i j) k.
Proof.
  intros H. unfold init_force. cbv zeta.
  in_cases H; read_through; reflexivity.
Qed.

Lemma init_force_offset_flag i j p :
  offset_flag (init_force pow i j p) = offset_flag p.
Proof. reflexivity. Qed.

(** *** The shift block *)

Lemma init_offset_frame i j p g a b :
  g <> offset -> rd (init_offset pow i j p) g a b = rd p g a b.
Proof.
  intros H. unfold init_offset.
  destruct (negb (offset_flag p =? 0)%Z && (0 <? rd p cut i j));
    cbv zeta; now rewrite rd_wr_field.
Qed.

Lemma init_offset_value i j p :
  rd (init_offset pow i j p) offset i j =
  if negb (offset_flag p =? 0)%Z && (0 <? rd p cut i j) then
    let ratio := rd p sigma i j / rd p cut i j in
    pow ratio 2 + pow ratio 4 + pow ratio 6 + pow ratio 8
    + pow ratio 10 + pow ratio 12
  else 0.
Proof.
  unfold init_offset.
  destruct (negb (offset_flag p =? 0)%Z && (0 <? rd p cut i j));
    cbv zeta; now rewrite rd_wr_eq.
Qed.

(** *** The mirroring blocks *)

Lemma symmetrize_potential_source i j p g :
  rd (symmetrize_potential i j p) g i j = rd p g i j.
Proof. unfold symmetrize_potential. cbv zeta. now rewrite !mirror_read_source. Qed.

Lemma symmetrize_force_source i j p g :
  rd (symmetrize_force i j p) g i j = rd p g i j.
Proof. unfold symmetrize_force. cbv zeta. now rewrite !mirror_read_source. Qed.

Lemma symmetrize_potential_frame i j p g a b :
  ~ In g potential_fields \/ (a <> j \/ b <> i)%Z ->
  rd (symmetrize_potential i j p) g a b = rd p g a b.
Proof.
  intros H. unfold symmetrize_potential. cbv zeta. destruct H as [H|H].
  - rewrite !mirror_other_field; [reflexivity|..]; intros ->; apply H; simpl; tauto.
  - now rewrite !mirror_other_cell.
Qed.

Lemma symmetrize_force_frame i j p g a b :
  ~ In g force_fields \/ (a <> j \/ b <> i)%Z ->
  rd (symmetrize_force i j p) g a b = rd p g a b.
Proof.
  intros H. unfold symmetrize_force. cbv zeta. destruct H as [H|H].
  - rewrite !mirror_other_field; [reflexivity|..]; intros ->; apply H; simpl; tauto.
  - now rewrite !mirror_other_cell.
Qed.

Lemma symmetrize_potential_target i j p g :
  In g potential_fields ->
  rd (symmetrize_potential i j p) g j i = rd p g i j.
Proof.
  intros H. unfold symmetrize_potential. cbv zeta.
  in_cases H;
    repeat first [ rewrite mirror_read_target
                 | rewrite mirror_other_field by discriminate ];
    rewrite ?mirror_read_source; reflexivity.
Qed.

Lemma symmetrize_force_target i j p g :
  In g force_fields ->
  rd (symmetrize_force i j p) g j i = rd p g i j.
Proof.
  intros H. unfold symmetrize_force. cbv zeta.
  in_cases H;
    repeat first [ rewrite mirror_read_target
                 | rewrite mirror_other_field by discriminate ];
    rewrite ?mirror_read_source; reflexivity.
Qed.

End InitOneFacts.

(* ================================================================== *)
(** ** [init_one]: the derived tables *)

(** Closed floats that differ. *)
Ltac floats_differ :=
  let H := fresh in
  intros H; apply (f_equal Prim2SF) in H; vm_compute in H; discriminate H.

Section InitOne.

Variable pow : float -> float -> float.
Variable mix_distance : PairInvPoly -> float -> float -> float.

Local Open Scope float_scope.

Local Notation "'resolved' i j p" := (snd (init_one pow mix_distance i j p))
  (at level 10, i, j, p at level 9).

(** Reading a cell [(i,j)] of the resolved object goes back to the block
    that wrote it. *)
Lemma init_one_params i j p g :
  ~ In g derived_fields ->
  rd (resolved i j p) g i j = rd (init_mix mix_distance i j p) g i j.
Proof.
  intros H. unfold init_one. cbv zeta. cbn [snd].
  rewrite mirror_read_source, symmetrize_force_source,
    symmetrize_potential_source.
  rewrite init_offset_frame, init_force_frame, init_potential_frame;
    [reflexivity|..]; intros Hg; apply H; unfold derived_fields;
    rewrite ?in_app_iff; subst; simpl; tauto.
Qed.

Lemma init_one_potential i j p k a P F :
  In (k, a, P, F) poly_terms ->
  rd (resolved i j p) P i j =
  rd (resolved i j p) a i j * pow (rd (resolved i j p) sigma i j) k.
Proof.
  intros H.
  rewrite (init_one_params i j p a), (init_one_params i j p sigma);
    [|unfold derived_fields; not_in
     |unfold derived_fields; in_cases H; not_in].
  unfold init_one. cbv zeta. cbn [snd].
  rewrite mirror_read_source, symmetrize_force_source,
    symmetrize_potential_source.
  rewrite init_offset_frame, init_force_frame;
    [|in_cases H; not_in|in_cases H; discriminate].
  now apply init_potential_value with (F := F).
Qed.

Lemma init_one_force i j p k a P F :
  In (k, a, P, F) poly_terms ->
  rd (resolved i j p) F i j =
  k * rd (resolved i j p) a i j * pow (rd (resolved i j p) sigma i j) k.
Proof.
  intros H.
  rewrite (init_one_params i j p a), (init_one_params i j p sigma);
    [|unfold derived_fields; not_in
     |unfold derived_fields; in_cases H; not_in].
  unfold init_one. cbv zeta. cbn [snd].
  rewrite mirror_read_source, symmetrize_force_source,
    symmetrize_potential_source.
  rewrite init_offset_frame; [|in_cases H; discriminate].
  rewrite (init_force_value pow i j _ k a P F H).
  rewrite !init_potential_frame; [reflexivity|..]; in_cases H; not_in.
Qed.

Lemma init_one_offset i j p :
  rd (resolved i j p) offset i j =
  if negb (offset_flag p =? 0)%Z && (0 <? rd (resolved i j p) cut i j) then
    let ratio := rd (resolved i j p) sigma i j / rd (resolved i j p) cut i j in
    pow ratio 2 + pow ratio 4 + pow ratio 6 + pow ratio 8
    + pow ratio 10 + pow ratio 12
  else 0.
Proof.
  rewrite (init_one_params i j p cut), (init_one_params i j p sigma);
    [|unfold derived_fields; not_in..].
  unfold init_one. cbv zeta. cbn [snd].
  rewrite mirror_read_source, symmetrize_force_source,
    symmetrize_potential_source, init_offset_value.
  rewrite init_force_offset_flag, init_potential_offset_flag,
    init_mix_offset_flag.
  rewrite !init_force_frame, !init_potential_frame by not_in.
  reflexivity.
Qed.

End InitOne.

Section InitOneClaims.

Variable pow : float -> float -> float.
Variable mix_distance : PairInvPoly -> float -> float -> float.

Local Open Scope float_scope.

Local Notation "'resolved' i j p" := (snd (init_one pow mix_distance i j p))
  (at level 10, i, j, p at level 9).

(** C2, as amended.  After [init_one(i,j)] each of the six potential
    tables, the six force tables and [offset] holds at [(j,i)] the value it
    holds at [(i,j)]; [sigma] and [cut] are not mirrored: their [(j,i)]
    cells keep the values they had before the call (when [i = j] the cell
    is the one the call resolved). *)
Theorem init_one_mirrors_derived_tables (i j : Z) (p : PairInvPoly) :
  Forall (fun g => rd (resolved i j p) g j i = rd (resolved i j p) g i j)
         derived_fields
  /\ rd (resolved i j p) sigma j i =
     (if (i =? j)%Z then rd (resolved i j p) sigma i j else rd p sigma j i)
  /\ rd (resolved i j p) cut j i =
     (if (i =? j)%Z then rd (resolved i j p) cut i j else rd p cut j i).
Proof.
  split.
  - apply Forall_forall. intros g Hg.
    unfold init_one. cbv zeta. cbn [snd].
    rewrite mirror_read_source, symmetrize_force_source,
      symmetrize_potential_source.
    unfold derived_fields in Hg. rewrite !in_app_iff in Hg.
    destruct Hg as [Hg|[Hg|Hg]].
    + rewrite mirror_other_field by (in_cases Hg; discriminate).
      rewrite symmetrize_force_frame by (left; in_cases Hg; not_in).
      now apply symmetrize_potential_target.
    + rewrite mirror_other_field by (in_cases Hg; discriminate).
      rewrite (symmetrize_force_target i j _ g Hg).
      now rewrite symmetrize_potential_source.
    + in_cases Hg. rewrite mirror_read_target.
      now rewrite symmetrize_force_source, symmetrize_potential_source.
  - assert (Hframe : forall g, g = sigma \/ g = cut -> i <> j ->
              rd (resolved i j p) g j i = rd p g j i).
    { intros g Hg Hij. unfold init_one. cbv zeta. cbn [snd].
      rewrite mirror_other_field by (destruct Hg; subst; discriminate).
      rewrite symmetrize_force_frame, symmetrize_potential_frame
        by (left; destruct Hg; subst; not_in).
      rewrite init_offset_frame by (destruct Hg; subst; discriminate).
      rewrite init_force_frame, init_potential_frame
        by (destruct Hg; subst; not_in).
      apply init_mix_frame. right. lia. }
    split; (destruct (Z.eqb_spec i j) as [->|Hij];
            [reflexivity | apply Hframe; auto]).
Qed.

(** C6, as amended.  After [init_one(i,j)], for each [k] in
    [{2,4,6,8,10,12}], [P_k = a_k * pow(sigma,k)] and
    [F_k = (k * a_k) * pow(sigma,k)], each product taken in double
    precision in the order written. *)
Theorem init_one_coefficients (i j : Z) (p : PairInvPoly) :
  Forall (fun '(k, a, P, F) =>
            rd (resolved i j p) P i j =
              rd (resolved i j p) a i j * pow (rd (resolved i j p) sigma i j) k
            /\ rd (resolved i j p) F i j =
               k * rd (resolved i j p) a i j
               * pow (rd (resolved i j p) sigma i j) k)
         poly_terms.
Proof.
  apply Forall_forall. intros [[[k a] P] F] H. split.
  - now apply init_one_potential with (F := F).
  - now apply init_one_force with (P := P).
Qed.

(** C3, at the failing input.  With shifting enabled and one pair with
    [sigma = cut = 1], [a2 = 1] and the other coefficients zero, the
    unshifted polynomial at [r = cut] is 1 but [init_one] stores 6 as the
    offset: the sum of the six powers of [sigma/cut], without the
    coefficients [a_k].  [pow(1,y) = 1] is all that is asked of [pow]. *)
Theorem init_one_offset_omits_coefficients (p0 : PairInvPoly) :
  (forall y, pow 1 y = 1) ->
  let p := set_offset_flag 1 (with_pair 1 1 1 1 0 0 0 0 0 1 p0) in
  rd (resolved 1 1 p) offset 1 1 = 6
  /\ potential_at_cutoff pow (resolved 1 1 p) 1 1 = 1.
Proof.
  intros Hpow p.
  assert (Hs : rd (resolved 1 1 p) sigma 1 1 = 1).
  { rewrite init_one_params by (unfold derived_fields; not_in).
    unfold init_mix. reflexivity. }
  assert (Hc : rd (resolved 1 1 p) cut 1 1 = 1).
  { rewrite init_one_params by (unfold derived_fields; not_in).
    unfold init_mix. reflexivity. }
  assert (Ha : forall g v, In (g, v) [(a2, 1); (a4, 0); (a6, 0); (a8, 0);
                                      (a10, 0); (a12, 0)] ->
                           rd (resolved 1 1 p) g 1 1 = v).
  { intros g v Hg.
    rewrite init_one_params by (unfold derived_fields; in_cases Hg; not_in).
    unfold init_mix. in_cases Hg; reflexivity. }
  split.
  - rewrite init_one_offset, Hs, Hc. cbv zeta.
    change (1 / 1) with 1. rewrite !Hpow. reflexivity.
  - unfold potential_at_cutoff. rewrite Hs, Hc. cbv zeta.
    change (1 / 1) with 1. rewrite !Hpow.
    rewrite (Ha a2 1), (Ha a4 0), (Ha a6 0), (Ha a8 0), (Ha a10 0), (Ha a12 0)
      by (simpl; tauto).
    reflexivity.
Qed.

End InitOneClaims.

Lemma pow_exact_one (y : float) : pow_exact 1 y = 1%float.
Proof. reflexivity. Qed.

Lemma init_one_offset_omits_coefficients_witness :
  (forall y, pow_exact 1 y = 1%float)
  /\ rd (snd (init_one pow_exact mix_geometric 1 1
                (set_offset_flag 1 (with_pair 1 1 1 1 0 0 0 0 0 1 fresh))))
        offset 1 1 = 6%float.
Proof.
  split; [exact pow_exact_one|].
  exact (proj1 (init_one_offset_omits_coefficients
                  pow_exact mix_geometric fresh pow_exact_one)).
Defined.

(** C2, as stated, fails for [sigma] and [cut].  Two types, the pair [(1,2)]
    configured with [sigma = 1] and [cut = 2.5] in freshly allocated tables:
    after [init_one(1,2)] the cells [(2,1)] of [sigma] and [cut] still hold
    what the allocation left there. *)
Lemma init_one_leaves_sigma_cut_unmirrored :
  let p := snd (coeff zero_filled 2 numeric_words range_words
                  ["1"; "2"; "1.0"; "1.0"; "0.0"; "0.0"; "0.0"; "0.0"; "0.0"; "2.5"]
                  fresh) in
  let p' := snd (init_one pow_exact mix_geometric 1 2 p) in
  (rd p' sigma 1 2 = 1 /\ rd p' sigma 2 1 = 0 /\ rd p' cut 1 2 = 2.5
   /\ rd p' cut 2 1 = 0)%float
  /\ rd p' sigma 2 1 <> rd p' sigma 1 2
  /\ rd p' cut 2 1 <> rd p' cut 1 2.
Proof.
  cbv zeta. split; [|split].
  - vm_compute. repeat split; reflexivity.
  - floats_differ.
  - floats_differ.
Qed.

(** C6, as stated, fails in double precision: [F_k] is stored as
    [(k * a_k) * pow(sigma,k)], which is not always the double [k * P_k].
    With [sigma = 3] (so that [pow(sigma,6) = 729]) and [a6] the double
    nearest 0.1, [F_6] is [0x1.b566666666668p+8] (437.4000000000001) and
    [6 * P_6] is [0x1.b566666666667p+8] (437.40000000000003), one unit in
    the last place below. *)
Lemma init_one_force_is_not_k_times_potential :
  let p := with_pair 1 1 3 0 0 0x1.999999999999ap-4 0 0 0 2.5 fresh in
  let p' := snd (init_one pow_exact mix_geometric 1 1 p) in
  (rd p' dinv_poly6 1 1 = 0x1.b566666666668p+8
   /\ 6 * rd p' inv_poly6 1 1 = 0x1.b566666666667p+8)%float
  /\ rd p' dinv_poly6 1 1 <> (6 * rd p' inv_poly6 1 1)%float.
Proof.
  cbv zeta. split.
  - vm_compute. split; reflexivity.
  - floats_differ.
Qed.

(* ================================================================== *)
(** ** [settings]: the cutoff sweep *)

Lemma same_scalars_refl p : same_scalars p p.
Proof. repeat split. Qed.

Section Sweep.

Variable ntypes : Z.

Lemma reset_row_spec (i : Z) (p : PairInvPoly) :
  same_scalars p (reset_row ntypes i p)
  /\ (forall b, i <= b <= ntypes -> setflag p i b <> 0 ->
                rd (reset_row ntypes i p) cut i b = cut_global p)
  /\ (forall g a b,
         g <> cut \/ a <> i \/ ~ (i <= b <= ntypes) \/ setflag p i b = 0 ->
         rd (reset_row ntypes i p) g a b = rd p g a b).
Proof.
  unfold reset_row.
  destruct (Z_lt_le_dec ntypes i) as [Hlt|Hle].
  { rewrite for_to_empty by lia. split; [apply same_scalars_refl|].
    split; [intros; lia | reflexivity]. }
  pose (J := fun (l : Z) (t : PairInvPoly) =>
    same_scalars p t
    /\ (forall b, i <= b < l -> setflag p i b <> 0 -> rd t cut i b = cut_global p)
    /\ (forall g a b,
           g <> cut \/ a <> i \/ ~ (i <= b < l) \/ setflag p i b = 0 ->
           rd t g a b = rd p g a b)).
  assert (HJ : J (ntypes + 1) (for_to i ntypes (fun j p0 =>
    if negb (setflag p0 i j =? 0) then wr cut i j (cut_global p0) p0 else p0) p)).
  { apply for_to_invariant; [lia| |].
    - split; [apply same_scalars_refl|]. split; [intros; lia | reflexivity].
    - intros k t Hk (Hsc & Hin & Hout).
      destruct Hsc as (Hal & Hsf & Hcg & Hof & Hmf).
      rewrite Hsf, Hcg.
      destruct (Z.eqb_spec (setflag p i k) 0) as [Hz|Hnz]; cbn [negb].
      + split; [repeat split; assumption|]. split.
        * intros b Hb Hset. apply Hin; [|exact Hset].
          assert (b <> k) by congruence. lia.
        * intros g a b Hcase. apply Hout.
          destruct Hcase as [H|[H|[H|H]]]; auto.
          right; right; left; lia.
      + split; [repeat split; assumption|]. split.
        * intros b Hb Hset. destruct (Z.eq_dec b k) as [->|Hbk].
          -- apply rd_wr_eq.
          -- rewrite rd_wr_cell by lia. apply Hin; [lia | exact Hset].
        * intros g a b Hcase.
          destruct Hcase as [H|[H|[H|H]]].
          -- rewrite rd_wr_field by exact H. apply Hout; auto.
          -- rewrite rd_wr_cell by lia. apply Hout; auto.
          -- rewrite rd_wr_cell by lia. apply Hout.
             right; right; left; lia.
          -- assert (b <> k) by congruence.
             rewrite rd_wr_cell by lia. apply Hout; auto. }
  destruct HJ as (Hsc & Hin & Hout). split; [exact Hsc|]. split.
  - intros b Hb. apply Hin. lia.
  - intros g a b Hcase. apply Hout.
    destruct Hcase as [H|[H|[H|H]]]; auto. right; right; left; lia.
Qed.

Lemma reset_cutoffs_spec (p : PairInvPoly) :
  same_scalars p (reset_cutoffs ntypes p)
  /\ (forall a b, swept ntypes p a b -> rd (reset_cutoffs ntypes p) cut a b = cut_global p)
  /\ (forall g a b, g <> cut \/ ~ swept ntypes p a b ->
                    rd (reset_cutoffs ntypes p) g a b = rd p g a b).
Proof.
  unfold reset_cutoffs.
  change (for_to 1 ntypes (fun i => for_to i ntypes (fun j p0 =>
            if negb (setflag p0 i j =? 0) then wr cut i j (cut_global p0) p0
            else p0)) p)
    with (for_to 1 ntypes (reset_row ntypes) p).
  destruct (Z_lt_le_dec ntypes 0) as [Hlt|Hle].
  { rewrite for_to_empty by lia. split; [apply same_scalars_refl|].
    split; [unfold swept; intros; lia | reflexivity]. }
  pose (I := fun (k : Z) (t : PairInvPoly) =>
    same_scalars p t
    /\ (forall a b, swept ntypes p a b -> a < k -> rd t cut a b = cut_global p)
    /\ (forall g a b, g <> cut \/ ~ swept ntypes p a b \/ k <= a ->
                      rd t g a b = rd p g a b)).
  assert (HI : I (ntypes + 1) (for_to 1 ntypes (reset_row ntypes) p)).
  { apply for_to_invariant; [lia| |].
    - split; [apply same_scalars_refl|].
      split; [unfold swept; intros; lia | reflexivity].
    - intros k t Hk (Hsc & Hin & Hout).
      destruct (reset_row_spec k t) as (Rsc & Rin & Rout).
      destruct Hsc as (Hal & Hsf & Hcg & Hof & Hmf).
      destruct Rsc as (Ral & Rsf & Rcg & Rof & Rmf).
      split; [repeat split; congruence|]. split.
      + intros a b Hsw Ha. destruct (Z.eq_dec a k) as [->|Hak].
        * rewrite Rin; [congruence| |rewrite Hsf]; unfold swept in Hsw; tauto || lia.
        * rewrite Rout by auto. apply Hin; [exact Hsw | lia].
      + intros g a b Hcase.
        destruct Hcase as [H|[H|H]].
        * rewrite Rout by auto. apply Hout; auto.
        * destruct (Z.eq_dec a k) as [->|Hak].
          -- rewrite Rout; [apply Hout; auto|].
             rewrite Hsf. unfold swept in H.
             destruct (Z.eq_dec (setflag p k b) 0); [auto|].
             right; right; left. lia.
          -- rewrite Rout by auto. apply Hout; auto.
        * rewrite Rout by (right; left; lia). apply Hout. right; right; lia. }
  destruct HI as (Hsc & Hin & Hout). split; [exact Hsc|]. split.
  - intros a b Hsw. apply Hin; [exact Hsw|]. unfold swept in Hsw. lia.
  - intros g a b Hcase. apply Hout. tauto.
Qed.

End Sweep.

(* ================================================================== *)
(** ** [allocate]: what the new tables hold *)

(** The inner loop of [allocate] for the type [i]. *)
Lemma allocate_row_spec (n i : Z) (p : PairInvPoly) :
  let q := for_to i n (fun j => wr_setflag i j 0) p in
  allocated q = allocated p /\ dbl q = dbl p /\ cut_global q = cut_global p
  /\ offset_flag q = offset_flag p /\ mix_flag q = mix_flag p
  /\ (forall a b, setflag q a b =
                  if (a =? i) && (i <=? b) && (b <=? n) then 0 else setflag p a b).
Proof.
  cbv zeta.
  destruct (Z_lt_le_dec n i) as [Hlt|Hle].
  { rewrite for_to_empty by lia. repeat split. intros a b.
    destruct (Z.eqb_spec a i), (Z.leb_spec i b), (Z.leb_spec b n);
      simpl; try reflexivity; lia. }
  pose (J := fun (l : Z) (t : PairInvPoly) =>
    allocated t = allocated p /\ dbl t = dbl p /\ cut_global t = cut_global p
    /\ offset_flag t = offset_flag p /\ mix_flag t = mix_flag p
    /\ (forall a b, setflag t a b =
                    if (a =? i) && (i <=? b) && (b <? l) then 0 else setflag p a b)).
  assert (HJ : J (n + 1) (for_to i n (fun j => wr_setflag i j 0) p)).
  { apply for_to_invariant; [lia| |].
    - repeat split. intros a b.
      destruct (Z.eqb_spec a i), (Z.leb_spec i b), (Z.ltb_spec b i);
        simpl; try reflexivity; lia.
    - intros k t Hk (H1 & H2 & H3 & H4 & H5 & H6).
      repeat split; try assumption.
      intros a b. unfold wr_setflag, tset. cbn [setflag]. rewrite H6.
      destruct (Z.eqb_spec a i), (Z.eqb_spec b k), (Z.leb_spec i b),
        (Z.ltb_spec b k), (Z.ltb_spec b (k + 1)); simpl; try reflexivity; lia. }
  destruct HJ as (H1 & H2 & H3 & H4 & H5 & H6). repeat split; try assumption.
  intros a b. rewrite H6.
  destruct (Z.eqb_spec a i), (Z.leb_spec i b), (Z.ltb_spec b (n + 1)),
    (Z.leb_spec b n); simpl; try reflexivity; lia.
Qed.

(** The two loops of [allocate]. *)
Lemma allocate_loops_spec (n : Z) (p : PairInvPoly) :
  let q := for_to 1 n (fun i => for_to i n (fun j => wr_setflag i j 0)) p in
  allocated q = allocated p /\ dbl q = dbl p /\ cut_global q = cut_global p
  /\ offset_flag q = offset_flag p /\ mix_flag q = mix_flag p
  /\ (forall i j, setflag q i j =
                  if (1 <=? i) && (i <=? j) && (j <=? n) then 0 else setflag p i j).
Proof.
  cbv zeta.
  destruct (Z_lt_le_dec n 0) as [Hlt|Hle].
  { rewrite for_to_empty by lia. repeat split. intros a b.
    destruct (Z.leb_spec 1 a), (Z.leb_spec a b), (Z.leb_spec b n);
      simpl; try reflexivity; lia. }
  pose (I := fun (k : Z) (t : PairInvPoly) =>
    allocated t = allocated p /\ dbl t = dbl p /\ cut_global t = cut_global p
    /\ offset_flag t = offset_flag p /\ mix_flag t = mix_flag p
    /\ (forall a b, setflag t a b =
                    if (1 <=? a) && (a <? k) && (a <=? b) && (b <=? n)
                    then 0 else setflag p a b)).
  assert (HI : I (n + 1)
                 (for_to 1 n (fun i => for_to i n (fun j => wr_setflag i j 0)) p)).
  { apply for_to_invariant; [lia| |].
    - repeat split. intros a b.
      destruct (Z.leb_spec 1 a), (Z.ltb_spec a 1); simpl; try reflexivity; lia.
    - intros k t Hk (H1 & H2 & H3 & H4 & H5 & H6).
      destruct (allocate_row_spec n k t) as (R1 & R2 & R3 & R4 & R5 & R6).
      repeat split; try congruence.
      intros a b. rewrite R6, H6.
      destruct (Z.eqb_spec a k), (Z.leb_spec k b), (Z.leb_spec b n),
        (Z.leb_spec 1 a), (Z.ltb_spec a k), (Z.ltb_spec a (k + 1)),
        (Z.leb_spec a b); simpl; try reflexivity; lia. }
  destruct HI as (H1 & H2 & H3 & H4 & H5 & H6). repeat split; try assumption.
  intros a b. rewrite H6.
  destruct (Z.leb_spec 1 a), (Z.ltb_spec a (n + 1)), (Z.leb_spec a b),
    (Z.leb_spec b n); simpl; try reflexivity; lia.
Qed.

Lemma create_allocated m f p : allocated (create m f p) = allocated p.
Proof. reflexivity. Qed.

Lemma create_setflag_same m f p : setflag (create m f p) = setflag p.
Proof. reflexivity. Qed.

Lemma create_cut_global m f p : cut_global (create m f p) = cut_global p.
Proof. reflexivity. Qed.

Lemma create_offset_flag m f p : offset_flag (create m f p) = offset_flag p.
Proof. reflexivity. Qed.

Lemma create_mix_flag m f p : mix_flag (create m f p) = mix_flag p.
Proof. reflexivity. Qed.

Lemma create_dbl m f p g :
  dbl (create m f p) g = if dfield_eq_dec g f then created_double m f else dbl p g.
Proof. reflexivity. Qed.

(** What [allocate] leaves: the settings as they were, every table a new
    array, the flags of the upper triangle cleared. *)
Lemma allocate_spec (memory : Memory) (n : Z) (p : PairInvPoly) :
  allocated (allocate memory n p) = 1
  /\ cut_global (allocate memory n p) = cut_global p
  /\ offset_flag (allocate memory n p) = offset_flag p
  /\ mix_flag (allocate memory n p) = mix_flag p
  /\ (forall i j, setflag (allocate memory n p) i j =
                  if (1 <=? i) && (i <=? j) && (j <=? n) then 0
                  else created_int memory i j)
  /\ (forall g, dbl (allocate memory n p) g = created_double memory g).
Proof.
  unfold allocate. cbv zeta.
  destruct (allocate_loops_spec n (create_setflag memory (set_allocated 1 p)))
    as (H1 & _ & H3 & H4 & H5 & H6).
  revert H1 H3 H4 H5 H6.
  generalize (for_to 1 n (fun i => for_to i n (fun j => wr_setflag i j 0))
                (create_setflag memory (set_allocated 1 p))).
  intros q H1 H3 H4 H5 H6.
  rewrite !create_allocated, !create_setflag_same, !create_cut_global,
    !create_offset_flag, !create_mix_flag.
  repeat split; try assumption.
  intros g. rewrite !create_dbl. destruct g; reflexivity.
Qed.

(* ================================================================== *)
(** ** [settings] and [coeff]: the claims *)

Section ConfigurationClaims.

Variable memory : Memory.
Variable ntypes : Z.
Variable numeric : string -> option float.
Variable range_of : string -> Z -> Z -> Z * Z.

(** C4, as amended.  [settings] with one numeric word stores it as
    [cut_global] and, once the tables are allocated, overwrites with it the
    cutoff of every pair [(i,j)], [1 <= i <= j <= ntypes], whose flag is
    set, whether or not that pair was given a cutoff of its own; every
    other cutoff, every other table, the flags and the other settings are
    left as they were. *)
Theorem settings_resets_every_set_cutoff (word : string) (v : float)
        (p : PairInvPoly) :
  numeric word = Some v ->
  exists p',
    settings ntypes numeric [word] p = (Done tt, p')
    /\ cut_global p' = v
    /\ allocated p' = allocated p /\ setflag p' = setflag p
    /\ offset_flag p' = offset_flag p /\ mix_flag p' = mix_flag p
    /\ (forall i j, allocated p <> 0 /\ swept ntypes p i j ->
                    rd p' cut i j = v)
    /\ (forall g i j, g <> cut \/ allocated p = 0 \/ ~ swept ntypes p i j ->
                      rd p' g i j = rd p g i j).
Proof.
  intros Hnum.
  unfold settings, bind, utils_numeric, arg_at, modify, get, ret.
  cbn [List.length nth Z.of_nat Pos.of_succ_nat Z.eqb Pos.eqb negb].
  rewrite Hnum.
  change (allocated (set_cut_global v p)) with (allocated p).
  destruct (Z.eqb_spec (allocated p) 0) as [Hz|Hnz]; cbn [negb].
  - eexists. split; [reflexivity|]. repeat split; try reflexivity.
    intros i j [Hal _]. contradiction.
  - destruct (reset_cutoffs_spec ntypes (set_cut_global v p))
      as ((Hal & Hsf & Hcg & Hof & Hmf) & Hin & Hout).
    eexists. split; [reflexivity|]. repeat split; try assumption.
    + intros i j [_ Hsw]. now apply Hin.
    + intros g i j Hcase. rewrite Hout; [reflexivity|].
      destruct Hcase as [H|[H|H]]; [auto|contradiction|right; exact H].
Qed.

Lemma coeff_fill_no_pair ilo ihi jlo jhi s c2 c4 c6 c8 c10 c12 rc p :
  no_pair (ilo, ihi) (jlo, jhi) ->
  coeff_fill ilo ihi jlo jhi s c2 c4 c6 c8 c10 c12 rc p = (p, 0).
Proof.
  intros Hno. unfold coeff_fill.
  apply (for_to_preserves (fun t => t = (p, 0))); [reflexivity|].
  intros i t Hi ->. apply for_to_empty.
  destruct (Z_lt_le_dec jhi (Z.max jlo i)) as [Hlt|Hle]; [exact Hlt|].
  exfalso. apply (Hno i (Z.max jlo i)); simpl; lia.
Qed.

(** C9, as amended.  [coeff] fails whenever the number of words is not 9 or
    10, a range leaves [1 .. ntypes], or the two ranges hold no pair [(i,j)]
    with [i <= j].  The failed call has stored no coefficient and set no
    flag: the object is left as it was when the number of words is wrong or
    its tables were allocated already, and the settings are as before in
    every case.  Otherwise (the tables did not exist yet) the call stopped
    after [allocate]: the object left is the one [allocate] makes, with the
    flags of the upper triangle cleared. *)
Theorem coeff_rejects_without_writing (arg : list string) (p : PairInvPoly) :
  let narg := Z.of_nat (List.length arg) in
  let ib := range_of (arg_at arg 0) 1 ntypes in
  let jb := range_of (arg_at arg 1) 1 ntypes in
  narg < 9 \/ narg > 10 \/ out_of_range ntypes ib \/ out_of_range ntypes jb \/ no_pair ib jb ->
  exists msg,
    coeff memory ntypes numeric range_of arg p
    = (Raised msg, rejected_state memory ntypes arg p)
    /\ cut_global (rejected_state memory ntypes arg p) = cut_global p
    /\ offset_flag (rejected_state memory ntypes arg p) = offset_flag p
    /\ mix_flag (rejected_state memory ntypes arg p) = mix_flag p
    /\ (narg < 9 \/ narg > 10 \/ allocated p <> 0 ->
        rejected_state memory ntypes arg p = p)
    /\ (9 <= narg <= 10 -> allocated p = 0 ->
        rejected_state memory ntypes arg p = allocate memory ntypes p
        /\ allocated (rejected_state memory ntypes arg p) = 1
        /\ forall i j, 1 <= i <= j -> j <= ntypes ->
                       setflag (rejected_state memory ntypes arg p) i j = 0).
Proof.
  intros narg ib jb Hbad.
  assert (Hframe :
    cut_global (rejected_state memory ntypes arg p) = cut_global p
    /\ offset_flag (rejected_state memory ntypes arg p) = offset_flag p
    /\ mix_flag (rejected_state memory ntypes arg p) = mix_flag p
    /\ (narg < 9 \/ narg > 10 \/ allocated p <> 0 ->
        rejected_state memory ntypes arg p = p)
    /\ (9 <= narg <= 10 -> allocated p = 0 ->
        rejected_state memory ntypes arg p = allocate memory ntypes p
        /\ allocated (rejected_state memory ntypes arg p) = 1
        /\ forall i j, 1 <= i <= j -> j <= ntypes ->
                       setflag (rejected_state memory ntypes arg p) i j = 0)).
  { destruct (allocate_spec memory ntypes p) as (A1 & A2 & A3 & A4 & A5 & _).
    unfold rejected_state. cbv zeta. fold narg.
    destruct (Z.ltb_spec narg 9) as [Hlo|Hlo]; cbn [orb].
    { repeat split; try reflexivity; intros; lia. }
    rewrite Z.gtb_ltb. destruct (Z.ltb_spec 10 narg) as [Hhi|Hhi].
    { repeat split; try reflexivity; intros; lia. }
    destruct (Z.eqb_spec (allocated p) 0) as [Hz|Hnz].
    - repeat split; try assumption.
      + intros [H|[H|H]]; [lia|lia|contradiction].
      + intros i j Hij Hj. rewrite A5.
        destruct (Z.leb_spec 1 i), (Z.leb_spec i j), (Z.leb_spec j ntypes);
          simpl; try reflexivity; lia.
    - repeat split; try reflexivity; intros; contradiction. }
  enough (Hrun : exists msg,
             coeff memory ntypes numeric range_of arg p
             = (Raised msg, rejected_state memory ntypes arg p)).
  { destruct Hrun as [msg Hrun]. exists msg. split; [exact Hrun | exact Hframe]. }
  clear Hframe.
  unfold coeff, rejected_state. fold narg.
  destruct ((narg <? 9) || (narg >? 10)) eqn:Hn.
  { eexists. reflexivity. }
  assert (Hnarg : 9 <= narg <= 10).
  { apply orb_false_iff in Hn. destruct Hn as [H1 H2].
    apply Z.ltb_ge in H1. rewrite Z.gtb_ltb in H2. apply Z.ltb_ge in H2. lia. }
  destruct Hbad as [H|[H|Hbad]]; [lia|lia|].
  unfold bind at 1 2. unfold get at 1.
  set (q := if allocated p =? 0 then allocate memory ntypes p else p).
  assert (Hq : (if allocated p =? 0 then modify (allocate memory ntypes) else ret tt) p
               = (Done tt, q)).
  { unfold q. now destruct (allocated p =? 0). }
  rewrite Hq. clear Hq. unfold bind at 1. unfold utils_bounds at 1.
  fold ib. destruct ib as [ilo ihi] eqn:Eib.
  destruct ((ilo <? 1) || (ihi >? ntypes)) eqn:Hi.
  { eexists. reflexivity. }
  unfold ret at 1. unfold bind at 1. unfold utils_bounds at 1.
  fold jb. destruct jb as [jlo jhi] eqn:Ejb.
  destruct ((jlo <? 1) || (jhi >? ntypes)) eqn:Hj.
  { eexists. reflexivity. }
  unfold ret at 1.
  assert (Hno : no_pair (ilo, ihi) (jlo, jhi)).
  { apply orb_false_iff in Hi. destruct Hi as [Hi1 Hi2].
    apply orb_false_iff in Hj. destruct Hj as [Hj1 Hj2].
    apply Z.ltb_ge in Hi1, Hj1. rewrite Z.gtb_ltb in Hi2, Hj2.
    apply Z.ltb_ge in Hi2, Hj2.
    unfold out_of_range in Hbad. simpl in Hbad.
    destruct Hbad as [H|[H|H]]; [lia|lia|exact H]. }
  unfold bind, utils_numeric, get, modify, ret, error_all.
  repeat match goal with
         | |- context [numeric ?w] => destruct (numeric w)
         | |- context [narg =? 10] => destruct (narg =? 10)
         end;
    rewrite ?coeff_fill_no_pair by exact Hno;
    cbn [Z.eqb]; eexists; reflexivity.
Qed.

End ConfigurationClaims.

Lemma settings_resets_every_set_cutoff_witness :
  numeric_words "2.5" = Some 2.5%float
  /\ exists p', settings 1 numeric_words ["2.5"] fresh = (Done tt, p')
                /\ cut_global p' = 2.5%float.
Proof.
  split; [reflexivity|].
  destruct (settings_resets_every_set_cutoff 1 numeric_words "2.5" 2.5%float
              fresh eq_refl) as (p' & Hrun & Hcg & _).
  exists p'. split; [exact Hrun | exact Hcg].
Defined.

(** C4, as stated, fails for a pair given a cutoff of its own.  One type;
    [coeff] configures the pair [(1,1)] with the explicit cutoff 3.0; a later
    [settings 2.5] overwrites that cutoff with 2.5. *)
Lemma settings_overwrites_explicit_cutoff :
  let p1 := snd (coeff zero_filled 1 numeric_words range_words
                   ["1"; "1"; "1.0"; "1.0"; "0.0"; "0.0"; "0.0"; "0.0"; "0.0"; "3.0"]
                   fresh) in
  let p2 := snd (settings 1 numeric_words ["2.5"] p1) in
  (rd p1 cut 1 1 = 3 /\ rd p2 cut 1 1 = 2.5)%float
  /\ rd p2 cut 1 1 <> rd p1 cut 1 1.
Proof.
  cbv zeta. split.
  - vm_compute. split; reflexivity.
  - floats_differ.
Qed.

(** C9, as stated, fails on the first [coeff] of an object.  One type, no
    table yet, and the range [0] for the first type: the call is rejected,
    but only after [allocate] has run.  The tables exist now and the call
    has written the flag of the pair [(1,1)], where the new array held 7:
    the object it leaves is not the one it was given. *)
Lemma coeff_allocates_before_rejecting :
  let r := coeff leftover 1 numeric_words range_words
                 ["0"; "1"; "1.0"; "1.0"; "0.0"; "0.0"; "0.0"; "0.0"; "0.0"] fresh in
  fst r = Raised "Numeric index is out of bounds"
  /\ allocated fresh = 0 /\ allocated (snd r) = 1
  /\ created_int leftover 1 1 = 7 /\ setflag (snd r) 1 1 = 0
  /\ snd r <> fresh.
Proof.
  cbv zeta. split; [|split; [|split; [|split; [|split]]]].
  - vm_compute. reflexivity.
  - reflexivity.
  - vm_compute. reflexivity.
  - reflexivity.
  - vm_compute. reflexivity.
  - intros Heq. apply (f_equal allocated) in Heq. vm_compute in Heq. discriminate.
Qed.

Lemma coeff_rejects_without_writing_witness :
  let p := snd (coeff zero_filled 1 numeric_words range_words
                  ["1"; "1"; "1.0"; "1.0"; "0.0"; "0.0"; "0.0"; "0.0"; "0.0"; "3.0"]
                  fresh) in
  out_of_range 1 (range_words "0" 1 1)
  /\ exists msg,
       coeff zero_filled 1 numeric_words range_words
             ["0"; "1"; "1.0"; "1.0"; "0.0"; "0.0"; "0.0"; "0.0"; "0.0"] p
       = (Raised msg, p).
Proof.
  intros p.
  assert (Hout : out_of_range 1 (range_words "0" 1 1)).
  { left. simpl. lia. }
  split; [exact Hout|].
  assert (Hal : allocated p <> 0) by (vm_compute; discriminate).
  revert Hal. generalize p. clear p. intros p Hal.
  destruct (coeff_rejects_without_writing zero_filled 1 numeric_words range_words
              ["0"; "1"; "1.0"; "1.0"; "0.0"; "0.0"; "0.0"; "0.0"; "0.0"] p)
    as (msg & Hrun & _ & _ & _ & Hsame & _).
  { right; right; left. exact Hout. }
  exists msg. rewrite Hrun. f_equal. apply Hsame. right; right. exact Hal.
Defined.

(* ================================================================== *)
(** ** The kernel: what a pass leaves alone *)

Lemma same_inputs_refl w : same_inputs w w.
Proof. repeat split. Qed.

Lemma same_inputs_trans w1 w2 w3 :
  same_inputs w1 w2 -> same_inputs w2 w3 -> same_inputs w1 w3.
Proof.
  unfold same_inputs. intros H12 H23.
  decompose [and] H12. decompose [and] H23. repeat split; congruence.
Qed.

Section KernelFrame.

Variable sbmask : Z -> Z.
Variable NEIGHMASK : Z.
Variable ev_flags : Z -> Z -> Z * Z.

Lemma compute_pair_same_inputs eflag i xtmp ytmp ztmp itype jj w evdwl :
  same_inputs w
    (fst (compute_pair sbmask NEIGHMASK eflag i xtmp ytmp ztmp itype jj (w, evdwl))).
Proof.
  unfold compute_pair. cbv zeta.
  match goal with |- context [if ?c then _ else _] => destruct c end;
    [|apply same_inputs_refl].
  cbn [fst].
  repeat match goal with
         | |- context [if ?c then _ else _] => destruct c
         end;
    repeat split.
Qed.

Lemma compute_atom_same_inputs eflag ii w evdwl :
  same_inputs w (fst (compute_atom sbmask NEIGHMASK eflag ii (w, evdwl))).
Proof.
  unfold compute_atom. cbv zeta. cbn [fst].
  apply (for_below_preserves (fun we => same_inputs w (fst we)));
    [apply same_inputs_refl|].
  intros jj [t e] _ Ht.
  eapply same_inputs_trans; [exact Ht|].
  apply compute_pair_same_inputs.
Qed.

Lemma compute_pair_of w eflag vflag :
  pair (compute sbmask NEIGHMASK ev_flags eflag vflag w) = pair w.
Proof.
  unfold compute. cbv zeta.
  set (w0 := ev_init ev_flags eflag vflag w).
  assert (H0 : pair w0 = pair w).
  { unfold w0, ev_init. now destruct (ev_flags eflag vflag). }
  assert (Hloop : pair (fst (for_below 0 (list_inum (neighlist w0))
                               (compute_atom sbmask NEIGHMASK eflag)
                               (w0, 0%float))) = pair w).
  { apply (for_below_preserves (fun we => pair (fst we) = pair w));
      [exact H0|].
    intros ii [t e] _ Ht.
    destruct (compute_atom_same_inputs eflag ii t e) as (Hp & _).
    cbn [fst] in Ht. congruence. }
  destruct (for_below 0 (list_inum (neighlist w0))
              (compute_atom sbmask NEIGHMASK eflag) (w0, 0%float)) as [w1 e1].
  cbn [fst] in Hloop.
  destruct (negb (vflag_fdotr w1 =? 0)); [exact Hloop | exact Hloop].
Qed.

(** C10.  A force pass and a single-pair evaluation leave the object as it
    was: the flags, every table ([sigma], [cut], [cutsq], [a2..a12], the
    twelve derived tables, [offset]) and the settings. *)
Theorem compute_and_single_leave_the_object (w : World) (eflag vflag : Z)
        (i j itype jtype : Z) (rsq factor_coul factor_lj : float)
        (p : PairInvPoly) :
  pair (compute sbmask NEIGHMASK ev_flags eflag vflag w) = pair w
  /\ snd (single i j itype jtype rsq factor_coul factor_lj p) = p.
Proof. split; [apply compute_pair_of | reflexivity]. Qed.

End KernelFrame.

(* ================================================================== *)
(** ** The kernel: one pair *)

Section KernelPair.

Variable sbmask : Z -> Z.
Variable NEIGHMASK : Z.

Local Open Scope float_scope.

(** C7.  A candidate whose squared separation equals [cutsq], or is
    greater, is skipped: the forces, the calls made and the carried energy
    are what they were. *)
Theorem compute_skips_pair_at_cutoff (eflag i : Z) (xtmp ytmp ztmp : float)
        (itype jj : Z) (w : World) (evdwl : float) :
  let c := candidate_of sbmask NEIGHMASK w i xtmp ytmp ztmp jj in
  let cutsq_ij := rd (pair w) cutsq itype (atom_type (atom w) (cand_j c)) in
  (cand_rsq c =? cutsq_ij) = true \/ (cutsq_ij <=? cand_rsq c) = true ->
  compute_pair sbmask NEIGHMASK eflag i xtmp ytmp ztmp itype jj (w, evdwl)
  = (w, evdwl).
Proof.
  intros c cutsq_ij Hge.
  assert (Hlt : (cand_rsq c <? cutsq_ij) = false).
  { destruct Hge as [H|H]; [now apply Dbl.eqb_not_ltb | now apply Dbl.leb_not_ltb]. }
  unfold compute_pair. cbv zeta.
  change (cand_rsq c <? cutsq_ij) with
    (cand_rsq c <? rd (pair w) cutsq itype (atom_type (atom w) (cand_j c))) in Hlt.
  unfold c, candidate_of in Hlt. cbv zeta in Hlt. cbn [cand_rsq cand_j] in Hlt.
  rewrite Hlt. reflexivity.
Qed.

(** C5.  For a candidate within the cutoff, the kernel applies exactly the
    force-per-distance that [single] writes for the same types, squared
    separation and exclusion factor, and, when energy is asked for, carries
    and tallies exactly the energy [single] returns. *)
Theorem compute_pair_agrees_with_single (eflag i : Z) (xtmp ytmp ztmp : float)
        (itype jj : Z) (w : World) (evdwl0 factor_coul : float) :
  let c := candidate_of sbmask NEIGHMASK w i xtmp ytmp ztmp jj in
  let jtype := atom_type (atom w) (cand_j c) in
  (cand_rsq c <? rd (pair w) cutsq itype jtype) = true ->
  let r := fst (single i (cand_j c) itype jtype (cand_rsq c) factor_coul
                       (cand_factor c) (pair w)) in
  let evdwl := if negb (eflag =? 0)%Z then fst r else evdwl0 in
  compute_pair sbmask NEIGHMASK eflag i xtmp ytmp ztmp itype jj (w, evdwl0)
  = (deposit i (cand_j c) (cand_delx c) (cand_dely c) (cand_delz c)
             evdwl (snd r) w,
     evdwl).
Proof.
  intros c jtype Hlt r evdwl.
  unfold compute_pair. cbv zeta.
  unfold c, candidate_of in Hlt. cbv zeta in Hlt. cbn [cand_rsq cand_j] in Hlt.
  unfold jtype, c, candidate_of in Hlt. cbv zeta in Hlt. cbn [cand_j] in Hlt.
  rewrite Hlt.
  unfold evdwl, r, single, deposit, jtype, c, candidate_of. cbv zeta.
  cbn [fst snd cand_j cand_factor cand_delx cand_dely cand_delz cand_rsq].
  rewrite (Dbl.mul_comm _ (force_special_lj (force w)
             (sbmask (list_firstneigh (neighlist w) i jj)))).
  destruct (negb (eflag =? 0)%Z),
    (negb (force_newton_pair (force w) =? 0)%Z
     || (Z.land (list_firstneigh (neighlist w) i jj) NEIGHMASK
         <? atom_nlocal (atom w))%Z);
    reflexivity.
Qed.

End KernelPair.

(* ================================================================== *)
(** ** The kernel on two particles *)

Section TwoParticles.

Variable pow : float -> float -> float.
Variable mix_distance : PairInvPoly -> float -> float -> float.
Hypothesis pow_one : forall y, pow 1 y = 1%float.

Local Open Scope float_scope.

Lemma two_particles_resolved :
  two_particles_tables (pair (two_particles pow mix_distance)).
Proof.
  unfold two_particles, two_particles_with_cut. cbn [pair]. unfold resolve_pair.
  set (q0 := with_pair 1 1 1 1 0 0 0 0 0 2.5 fresh).
  assert (Hpar : forall g, ~ In g derived_fields ->
            rd (snd (init_one pow mix_distance 1 1 q0)) g 1 1 = rd q0 g 1 1).
  { intros g Hg. rewrite init_one_params by exact Hg.
    unfold init_mix. reflexivity. }
  assert (Hcut : fst (init_one pow mix_distance 1 1 q0) = 2.5).
  { change (fst (init_one pow mix_distance 1 1 q0))
      with (rd (snd (init_one pow mix_distance 1 1 q0)) cut 1 1).
    rewrite Hpar by (unfold derived_fields; not_in). reflexivity. }
  assert (Hpot : forall k a P F, In (k, a, P, F) poly_terms ->
            rd (snd (init_one pow mix_distance 1 1 q0)) P 1 1 = rd q0 a 1 1 * 1
            /\ rd (snd (init_one pow mix_distance 1 1 q0)) F 1 1
               = k * rd q0 a 1 1 * 1).
  { intros k a P F H.
    rewrite (init_one_potential pow mix_distance 1 1 q0 k a P F H).
    rewrite (init_one_force pow mix_distance 1 1 q0 k a P F H).
    rewrite (Hpar sigma) by (unfold derived_fields; not_in).
    rewrite (Hpar a) by (unfold derived_fields; in_cases H; not_in).
    change (rd q0 sigma 1 1) with 1. rewrite pow_one. split; reflexivity. }
  assert (Hoff : rd (snd (init_one pow mix_distance 1 1 q0)) offset 1 1 = 0).
  { rewrite init_one_offset. reflexivity. }
  pose proof (Hpot 2 a2 inv_poly2 dinv_poly2 ltac:(simpl; tauto)) as [H2 G2].
  pose proof (Hpot 4 a4 inv_poly4 dinv_poly4 ltac:(simpl; tauto)) as [H4 G4].
  pose proof (Hpot 6 a6 inv_poly6 dinv_poly6 ltac:(simpl; tauto)) as [H6 G6].
  pose proof (Hpot 8 a8 inv_poly8 dinv_poly8 ltac:(simpl; tauto)) as [H8 G8].
  pose proof (Hpot 10 a10 inv_poly10 dinv_poly10 ltac:(simpl; tauto)) as [H10 G10].
  pose proof (Hpot 12 a12 inv_poly12 dinv_poly12 ltac:(simpl; tauto)) as [H12 G12].
  clear Hpot Hpar.
  destruct (init_one pow mix_distance 1 1 q0) as [c p'].
  cbn [fst snd] in *. subst c.
  split.
  - rewrite rd_wr_eq. reflexivity.
  - repeat (apply Forall_cons || apply Forall_nil);
      rewrite !rd_wr_field by discriminate;
      match goal with
      | H : rd p' ?T 1 1 = _ |- rd p' ?T 1 1 = _ => rewrite H; reflexivity
      end.
Qed.

Variable sbmask : Z -> Z.
Variable NEIGHMASK : Z.
Variable ev_flags : Z -> Z -> Z * Z.

Local Ltac table_facts H :=
  repeat match type of H with
         | Forall _ (_ :: _) =>
             let H1 := fresh "Htab" in
             apply Forall_cons_iff in H; destruct H as [H1 H];
             cbn beta iota in H1
         end.

(** C8.  In the two-particle scenario at separation 1: [r2inv = 1], the
    unshifted energy is 1, the force-per-distance is 2, and the pass puts
    on particle 1 the separation vector [(1,0,0)] scaled by 2 (and the
    opposite on particle 0), tallying the energy 1 and the
    force-per-distance 2 when tallies are on. *)
Theorem two_particles_energy_and_force :
  let w := two_particles pow mix_distance in
  let c := candidate_of sbmask NEIGHMASK w 1 1 0 0 0 in
  let w' := compute sbmask NEIGHMASK ev_flags 1 0 w in
  (cand_delx c, cand_dely c, cand_delz c) = (1, 0, 0)
  /\ cand_rsq c = 1
  /\ 1 / cand_rsq c = 1
  /\ fst (single 1 (cand_j c) 1 1 (cand_rsq c) 1 (cand_factor c) (pair w))
     = (1, 2)
  /\ (atom_f (atom w') 1 0, atom_f (atom w') 1 1, atom_f (atom w') 1 2)%Z
     = (cand_delx c * 2, cand_dely c * 2, cand_delz c * 2)
  /\ (atom_f (atom w') 1 0, atom_f (atom w') 1 1, atom_f (atom w') 1 2)%Z
     = (2, 0, 0)
  /\ (atom_f (atom w') 0 0, atom_f (atom w') 0 1, atom_f (atom w') 0 2)%Z
     = (-2, 0, 0)
  /\ calls w' =
     Call_ev_init 1 0
     :: (if negb (fst (ev_flags 1 0) =? 0)%Z
         then [Call_ev_tally 1 0 2 1 1 0 2 1 0 0] else [])
     ++ (if negb (snd (ev_flags 1 0) =? 0)%Z
         then [Call_virial_fdotr_compute] else []).
Proof.
  destruct two_particles_resolved as [Hc Htabs]. table_facts Htabs.
  revert Hc Htab Htab0 Htab1 Htab2 Htab3 Htab4 Htab5 Htab6 Htab7 Htab8 Htab9
         Htab10 Htab11.
  unfold two_particles, two_particles_with_cut. cbn [pair].
  generalize (resolve_pair pow mix_distance 1 1
                (with_pair 1 1 1 1 0 0 0 0 0 2.5 fresh)).
  intros P Hc Hp2 Hp4 Hp6 Hp8 Hp10 Hp12 Hd2 Hd4 Hd6 Hd8 Hd10 Hd12 Hoff.
  cbv zeta. unfold compute, ev_init.
  destruct (ev_flags 1 0) as [ev fdotr]. cbn [fst snd].
  destruct ev as [|ev|ev], fdotr as [|fdotr|fdotr].
  all: cbv -[rd].
  all: rewrite Hc.
  all: cbv -[rd].
  all: rewrite Hp2, Hp4, Hp6, Hp8, Hp10, Hp12, Hd2, Hd4, Hd6, Hd8, Hd10, Hd12, Hoff.
  all: cbv; repeat split; reflexivity.
Qed.

End TwoParticles.

Lemma two_particles_energy_and_force_witness :
  (forall y, pow_exact 1 y = 1%float)
  /\ (let w' := compute sbmask_30 NEIGHMASK_30 ev_flags_energy 1 0
                  (two_particles pow_exact mix_geometric) in
      (atom_f (atom w') 1 0, atom_f (atom w') 1 1, atom_f (atom w') 1 2)
      = (2, 0, 0)%float).
Proof.
  split; [exact pow_exact_one|].
  pose proof (two_particles_energy_and_force pow_exact mix_geometric pow_exact_one
                sbmask_30 NEIGHMASK_30 ev_flags_energy) as H.
  cbv zeta in H. exact (proj1 (proj2 (proj2 (proj2 (proj2 (proj2 H)))))).
Defined.

(** A pair at the cutoff: the scenario with [cut = 1], so that
    [rsq = cutsq = 1]. *)
Lemma compute_skips_pair_at_cutoff_witness :
  let w := two_particles_with_cut pow_exact mix_geometric 1 in
  let c := candidate_of sbmask_30 NEIGHMASK_30 w 1 1 0 0 0 in
  let cutsq_ij := rd (pair w) cutsq 1 (atom_type (atom w) (cand_j c)) in
  (cand_rsq c =? cutsq_ij)%float = true
  /\ compute_pair sbmask_30 NEIGHMASK_30 1 1 1 0 0 1 0 (w, 0%float) = (w, 0%float).
Proof.
  intros w c cutsq_ij.
  assert (H : (cand_rsq c =? cutsq_ij)%float = true).
  { vm_compute. reflexivity. }
  split; [exact H|].
  exact (compute_skips_pair_at_cutoff sbmask_30 NEIGHMASK_30 1 1 1 0 0 1 0
           w 0 (or_introl H)).
Defined.

Lemma compute_pair_agrees_with_single_witness :
  let w := two_particles pow_exact mix_geometric in
  let c := candidate_of sbmask_30 NEIGHMASK_30 w 1 1 0 0 0 in
  let jtype := atom_type (atom w) (cand_j c) in
  (cand_rsq c <? rd (pair w) cutsq 1 jtype)%float = true
  /\ (let r := fst (single 1 (cand_j c) 1 jtype (cand_rsq c) 1 (cand_factor c)
                           (pair w)) in
      let evdwl := if negb (1 =? 0) then fst r else 0%float in
      compute_pair sbmask_30 NEIGHMASK_30 1 1 1 0 0 1 0 (w, 0%float)
      = (deposit 1 (cand_j c) (cand_delx c) (cand_dely c) (cand_delz c)
                 evdwl (snd r) w,
         evdwl)).
Proof.
  intros w c jtype.
  assert (H : (cand_rsq c <? rd (pair w) cutsq 1 jtype)%float = true).
  { vm_compute. reflexivity. }
  split; [exact H|].
  exact (compute_pair_agrees_with_single sbmask_30 NEIGHMASK_30 1 1 1 0 0 1 0
           w 0 1 H).
Defined.

(* ================================================================== *)
(** ** The restart stream *)

(** With one type and its pair configured, the writer emits the settings,
    the flag and two doubles. *)
Lemma write_restart_configured_pair (p : PairInvPoly) :
  setflag p 1 1 = 1 ->
  write_restart 1 p []
  = double_bytes (cut_global p) ++ int_bytes (offset_flag p)
    ++ int_bytes (mix_flag p) ++ int_bytes 1
    ++ double_bytes (rd p sigma 1 1) ++ double_bytes (rd p cut 1 1).
Proof.
  intros Hset. unfold write_restart.
  change (for_to 1 1 ?f ?s) with (f 1 s). cbv beta.
  change (for_to 1 1 ?f ?s) with (f 1 s). cbv beta zeta.
  rewrite Hset. cbn [Z.eqb negb].
  unfold write_restart_settings, fwrite_int, fwrite_double. cbv zeta.
  rewrite <- !app_assoc. reflexivity.
Qed.

(** Whatever the values stored, the reader cannot take that stream back: it
    asks for eight doubles after the flag and the stream holds two. *)
Lemma read_restart_fails_on_configured_pair (memory : Memory) (p q : PairInvPoly) :
  setflag p 1 1 = 1 ->
  fst (read_restart memory 1 (write_restart 1 p []) q)
  = Raised "Unexpected end of file while reading restart".
Proof.
  intros Hset. rewrite (write_restart_configured_pair p Hset).
  generalize (double_bits (cut_global p)) (double_bits (rd p sigma 1 1))
    (double_bits (rd p cut 1 1)) (offset_flag p) (mix_flag p).
  unfold double_bytes. intros b1 b2 b3 f1 f2.
  vm_compute. reflexivity.
Qed.

(** C1, at the failing input.  One type, the pair [(1,1)] configured
    ([sigma = 1], [a2 = 1], [cut = 2.5]) and [cut_global = 2.5]:
    [write_restart] emits 36 bytes (the settings, the flag, [sigma], [cut]);
    [read_restart] on those bytes takes the flag and [sigma], takes the bytes
    of [cut] for [a2], and then finds the end of the stream where it expects
    [a4]: the restart aborts, with [a2 = 2.5] and no cutoff read. *)
Theorem read_restart_overruns_written_stream :
  let p := with_pair 1 1 1 1 0 0 0 0 0 2.5 (set_cut_global 2.5 fresh) in
  let fp := write_restart 1 p [] in
  let r := read_restart zero_filled 1 fp fresh in
  List.length fp = 36%nat
  /\ fst r = Raised "Unexpected end of file while reading restart"
  /\ rd (snd r) sigma 1 1 = 1%float
  /\ rd (snd r) a2 1 1 = 2.5%float
  /\ rd (snd r) a2 1 1 <> rd p a2 1 1.
Proof.
  cbv zeta. split; [|split; [|split; [|split]]].
  - vm_compute. reflexivity.
  - vm_compute. reflexivity.
  - vm_compute. reflexivity.
  - vm_compute. reflexivity.
  - floats_differ.
Qed.

(* ================================================================== *)
(** ** Further properties of the configuration, the precomputation, the
    kernel and the restart stream *)

(** X1.  [allocate] marks the tables allocated, leaves the three settings
    and clears the flag of every pair [(i,j)] with [1 <= i <= j <= ntypes]:
    after it every pair of the upper triangle is unset.  It initialises
    nothing else: the flags below the diagonal and of the row and column 0,
    and every cell of every table of doubles, hold what [memory->create]
    handed out, whatever the object held before. *)
Theorem allocate_clears_upper_triangle (memory : Memory) (n : Z) (p : PairInvPoly) :
  allocated (allocate memory n p) = 1
  /\ cut_global (allocate memory n p) = cut_global p
  /\ offset_flag (allocate memory n p) = offset_flag p
  /\ mix_flag (allocate memory n p) = mix_flag p
  /\ (forall i j, 1 <= i <= j -> j <= n -> setflag (allocate memory n p) i j = 0)
  /\ (forall i j, ~ (1 <= i <= j /\ j <= n) ->
                  setflag (allocate memory n p) i j = created_int memory i j)
  /\ (forall g i j, rd (allocate memory n p) g i j = created_double memory g i j).
Proof.
  destruct (allocate_spec memory n p) as (H1 & H3 & H4 & H5 & H6 & H7).
  repeat split; try assumption.
  - intros i j Hij Hj. rewrite H6.
    destruct (Z.leb_spec 1 i), (Z.leb_spec i j), (Z.leb_spec j n);
      simpl; try reflexivity; lia.
  - intros i j Hout. rewrite H6.
    destruct (Z.leb_spec 1 i), (Z.leb_spec i j), (Z.leb_spec j n);
      simpl; try reflexivity; lia.
  - intros g i j. unfold rd. rewrite H7. reflexivity.
Qed.



Section Fill.

Variables sigma_one a2_one a4_one a6_one a8_one a10_one a12_one cut_one : float.






End Fill.

Section CoeffAccepts.

Variable memory : Memory.
Variable ntypes : Z.
Variable numeric : string -> option float.
Variable range_of : string -> Z -> Z -> Z * Z.


End CoeffAccepts.


Lemma same_scalars_trans p q r :
  same_scalars p q -> same_scalars q r -> same_scalars p r.
Proof.
  unfold same_scalars. intros H1 H2.
  decompose [and] H1. decompose [and] H2. repeat split; congruence.
Qed.

Section InitOneMore.

Variable pow : float -> float -> float.
Variable mix_distance : PairInvPoly -> float -> float -> float.

Local Notation "'resolved' i j p" := (snd (init_one pow mix_distance i j p))
  (at level 10, i, j, p at level 9).

Lemma init_mix_scalars i j p : same_scalars p (init_mix mix_distance i j p).
Proof. unfold init_mix. destruct (setflag p i j =? 0); repeat split. Qed.

Lemma init_offset_scalars i j p : same_scalars p (init_offset pow i j p).
Proof.
  unfold init_offset.
  destruct (negb (offset_flag p =? 0) && (0 <? rd p cut i j)%float); repeat split.
Qed.

Lemma init_one_scalars i j p : same_scalars p (resolved i j p).
Proof.
  unfold init_one. cbv zeta. cbn [snd].
  eapply same_scalars_trans; [apply init_mix_scalars|].
  eapply same_scalars_trans; [|apply (same_scalars_refl _)].
  set (p1 := init_mix mix_distance i j p).
  set (p3 := init_force pow i j (init_potential pow i j p1)).
  assert (H3 : same_scalars p1 p3) by (repeat split).
  eapply same_scalars_trans; [exact H3|].
  eapply same_scalars_trans; [apply init_offset_scalars|].
  repeat split.
Qed.

Lemma init_potential_cell i j p g a b :
  a <> i \/ b <> j -> rd (init_potential pow i j p) g a b = rd p g a b.
Proof. intros H. unfold init_potential. cbv zeta. now rewrite !rd_wr_cell. Qed.

Lemma init_force_cell i j p g a b :
  a <> i \/ b <> j -> rd (init_force pow i j p) g a b = rd p g a b.
Proof. intros H. unfold init_force. cbv zeta. now rewrite !rd_wr_cell. Qed.

Lemma init_offset_cell i j p g a b :
  a <> i \/ b <> j -> rd (init_offset pow i j p) g a b = rd p g a b.
Proof.
  intros H. unfold init_offset.
  destruct (negb (offset_flag p =? 0) && (0 <? rd p cut i j)%float);
    cbv zeta; now rewrite rd_wr_cell.
Qed.

(** Away from [(i,j)] and [(j,i)] nothing is written. *)
Lemma init_one_other_cells i j p g a b :
  (a <> i \/ b <> j) -> (a <> j \/ b <> i) ->
  rd (resolved i j p) g a b = rd p g a b.
Proof.
  intros Hij Hji. unfold init_one. cbv zeta. cbn [snd].
  rewrite mirror_other_cell by exact Hji.
  rewrite symmetrize_force_frame, symmetrize_potential_frame by (right; exact Hji).
  rewrite init_offset_cell, init_force_cell, init_potential_cell by exact Hij.
  apply init_mix_frame. right. exact Hij.
Qed.

(** A table that is not derived is written by the mixing block only. *)
Lemma init_one_not_derived i j p g a b :
  ~ In g derived_fields ->
  rd (resolved i j p) g a b = rd (init_mix mix_distance i j p) g a b.
Proof.
  intros H. unfold init_one. cbv zeta. cbn [snd].
  assert (Hp : ~ In g potential_fields)
    by (intros Hg; apply H; unfold derived_fields; rewrite !in_app_iff; tauto).
  assert (Hf : ~ In g force_fields)
    by (intros Hg; apply H; unfold derived_fields; rewrite !in_app_iff; tauto).
  assert (Ho : g <> offset)
    by (intros ->; apply H; unfold derived_fields; rewrite !in_app_iff; simpl; tauto).
  rewrite mirror_other_field by exact Ho.
  rewrite symmetrize_force_frame by (left; exact Hf).
  rewrite symmetrize_potential_frame by (left; exact Hp).
  rewrite init_offset_frame by exact Ho.
  rewrite init_force_frame by exact Hf.
  now rewrite init_potential_frame by exact Hp.
Qed.

(** Every derived table is mirrored. *)
Lemma init_one_mirrored i j p g :
  In g derived_fields -> rd (resolved i j p) g j i = rd (resolved i j p) g i j.
Proof.
  intros Hg. unfold init_one. cbv zeta. cbn [snd].
  rewrite mirror_read_source, symmetrize_force_source, symmetrize_potential_source.
  unfold derived_fields in Hg. rewrite !in_app_iff in Hg.
  destruct Hg as [Hg|[Hg|Hg]].
  - rewrite mirror_other_field by (in_cases Hg; discriminate).
    rewrite symmetrize_force_frame by (left; in_cases Hg; not_in).
    now apply symmetrize_potential_target.
  - rewrite mirror_other_field by (in_cases Hg; discriminate).
    rewrite (symmetrize_force_target i j _ g Hg).
    now rewrite symmetrize_potential_source.
  - in_cases Hg. rewrite mirror_read_target.
    now rewrite symmetrize_force_source, symmetrize_potential_source.
Qed.

(** X3.  [init_one(i,j)] writes only the cells [(i,j)] and [(j,i)]; it never
    writes a flag, a setting, a shape coefficient [a2..a12] or [cutsq]: the
    coefficients of a pair left unset are not mixed, and the squared cutoff
    is left to the caller, to whom it returns [cut[i][j]]. *)
Theorem init_one_writes_two_cells (i j : Z) (p : PairInvPoly) :
  same_scalars p (resolved i j p)
  /\ (forall g a b, (a <> i \/ b <> j) /\ (a <> j \/ b <> i) ->
                    rd (resolved i j p) g a b = rd p g a b)
  /\ Forall (fun g => forall a b, rd (resolved i j p) g a b = rd p g a b)
            (cutsq :: coefficient_fields)
  /\ fst (init_one pow mix_distance i j p) = rd (resolved i j p) cut i j.
Proof.
  split; [apply init_one_scalars|]. split; [|split; [|reflexivity]].
  - intros g a b [Hij Hji]. now apply init_one_other_cells.
  - apply Forall_forall. intros g Hg a b.
    rewrite init_one_not_derived
      by (unfold derived_fields; unfold coefficient_fields in Hg; in_cases Hg; not_in).
    apply init_mix_frame. left.
    unfold coefficient_fields in Hg. in_cases Hg; split; discriminate.
Qed.

(** X4.  On a configured pair [init_one] mixes nothing: [sigma] and [cut]
    are left as configured in every cell, and the cutoff returned is the
    configured one. *)
Theorem init_one_keeps_configured_pair (i j : Z) (p : PairInvPoly) :
  setflag p i j <> 0 ->
  (forall a b, rd (resolved i j p) sigma a b = rd p sigma a b
               /\ rd (resolved i j p) cut a b = rd p cut a b)
  /\ fst (init_one pow mix_distance i j p) = rd p cut i j.
Proof.
  intros Hset.
  assert (Hmix : init_mix mix_distance i j p = p).
  { unfold init_mix. now destruct (Z.eqb_spec (setflag p i j) 0). }
  assert (H : forall g a b, g = sigma \/ g = cut ->
                            rd (resolved i j p) g a b = rd p g a b).
  { intros g a b Hg.
    rewrite init_one_not_derived by (unfold derived_fields; destruct Hg; subst; not_in).
    now rewrite Hmix. }
  split.
  - intros a b. split; apply H; auto.
  - change (fst (init_one pow mix_distance i j p)) with (rd (resolved i j p) cut i j).
    apply H. auto.
Qed.

(** X5.  On a pair left unset [init_one] stores the mixed [sigma] and the
    mixed cutoff of the two diagonal pairs, and returns that cutoff; the pair
    stays unset. *)
Theorem init_one_mixes_unset_pair (i j : Z) (p : PairInvPoly) :
  setflag p i j = 0 ->
  let sigma_ij := mix_distance p (rd p sigma i i) (rd p sigma j j) in
  let cut_ij := mix_distance (wr sigma i j sigma_ij p) (rd p cut i i) (rd p cut j j) in
  rd (resolved i j p) sigma i j = sigma_ij
  /\ rd (resolved i j p) cut i j = cut_ij
  /\ fst (init_one pow mix_distance i j p) = cut_ij
  /\ setflag (resolved i j p) i j = 0.
Proof.
  intros Hset sigma_ij cut_ij.
  assert (Hs : rd (resolved i j p) sigma i j = sigma_ij).
  { rewrite init_one_not_derived by (unfold derived_fields; not_in).
    unfold init_mix. rewrite Hset. cbn [Z.eqb]. cbv zeta.
    rewrite rd_wr_field by discriminate. apply rd_wr_eq. }
  assert (Hc : rd (resolved i j p) cut i j = cut_ij).
  { rewrite init_one_not_derived by (unfold derived_fields; not_in).
    unfold init_mix. rewrite Hset. cbn [Z.eqb]. cbv zeta.
    rewrite rd_wr_eq. unfold cut_ij.
    now rewrite !rd_wr_field by discriminate. }
  repeat split; try assumption.
  destruct (init_one_scalars i j p) as (_ & Hsf & _). now rewrite Hsf.
Qed.

(** X6.  After [init_one(i,j)], [single] gives the same energy and the same
    force for the two types in either order. *)
Theorem single_symmetric_after_init_one (i j a b : Z) (rsq fc fl : float)
        (p : PairInvPoly) :
  fst (single a b i j rsq fc fl (resolved i j p))
  = fst (single a b j i rsq fc fl (resolved i j p)).
Proof.
  unfold single. cbv zeta. cbn [fst].
  rewrite !(init_one_mirrored i j p) by (unfold derived_fields; simpl; tauto).
  reflexivity.
Qed.

End InitOneMore.

Lemma derived_fields_dec (g : dfield) : {In g derived_fields} + {~ In g derived_fields}.
Proof. apply in_dec. exact dfield_eq_dec. Defined.

Lemma parameters_not_derived (g : dfield) :
  In g (sigma :: cut :: coefficient_fields) -> ~ In g derived_fields.
Proof.
  intros H. unfold coefficient_fields in H. unfold derived_fields.
  in_cases H; not_in.
Qed.

Ltac in_list := repeat first [left; reflexivity | right].

Section InitOneTwice.

Variable pow : float -> float -> float.
Variable mix_distance : PairInvPoly -> float -> float -> float.

Local Notation "'resolved' i j p" := (snd (init_one pow mix_distance i j p))
  (at level 10, i, j, p at level 9).

(** The value of a derived table at [(i,j)], from the parameters of the
    resolved pair. *)
Lemma init_one_derived_value i j g :
  In g derived_fields ->
  exists F : float -> float -> float -> float -> float -> float -> float
             -> float -> Z -> float,
    forall q, rd (resolved i j q) g i j =
      F (rd (resolved i j q) sigma i j) (rd (resolved i j q) cut i j)
        (rd (resolved i j q) a2 i j) (rd (resolved i j q) a4 i j)
        (rd (resolved i j q) a6 i j) (rd (resolved i j q) a8 i j)
        (rd (resolved i j q) a10 i j) (rd (resolved i j q) a12 i j)
        (offset_flag q).
Proof.
  intros Hg. unfold derived_fields in Hg. rewrite !in_app_iff in Hg.
  destruct Hg as [Hg|[Hg|Hg]].
  - in_cases Hg.
    + exists (fun s c c2 c4 c6 c8 c10 c12 o => (c2 * pow s 2)%float). intros q.
      apply (init_one_potential pow mix_distance i j q 2%float a2 inv_poly2 dinv_poly2).
      simpl; tauto.
    + exists (fun s c c2 c4 c6 c8 c10 c12 o => (c4 * pow s 4)%float). intros q.
      apply (init_one_potential pow mix_distance i j q 4%float a4 inv_poly4 dinv_poly4).
      simpl; tauto.
    + exists (fun s c c2 c4 c6 c8 c10 c12 o => (c6 * pow s 6)%float). intros q.
      apply (init_one_potential pow mix_distance i j q 6%float a6 inv_poly6 dinv_poly6).
      simpl; tauto.
    + exists (fun s c c2 c4 c6 c8 c10 c12 o => (c8 * pow s 8)%float). intros q.
      apply (init_one_potential pow mix_distance i j q 8%float a8 inv_poly8 dinv_poly8).
      simpl; tauto.
    + exists (fun s c c2 c4 c6 c8 c10 c12 o => (c10 * pow s 10)%float). intros q.
      apply (init_one_potential pow mix_distance i j q 10%float a10 inv_poly10 dinv_poly10).
      simpl; tauto.
    + exists (fun s c c2 c4 c6 c8 c10 c12 o => (c12 * pow s 12)%float). intros q.
      apply (init_one_potential pow mix_distance i j q 12%float a12 inv_poly12 dinv_poly12).
      simpl; tauto.
  - in_cases Hg.
    + exists (fun s c c2 c4 c6 c8 c10 c12 o => (2 * c2 * pow s 2)%float). intros q.
      apply (init_one_force pow mix_distance i j q 2%float a2 inv_poly2 dinv_poly2).
      simpl; tauto.
    + exists (fun s c c2 c4 c6 c8 c10 c12 o => (4 * c4 * pow s 4)%float). intros q.
      apply (init_one_force pow mix_distance i j q 4%float a4 inv_poly4 dinv_poly4).
      simpl; tauto.
    + exists (fun s c c2 c4 c6 c8 c10 c12 o => (6 * c6 * pow s 6)%float). intros q.
      apply (init_one_force pow mix_distance i j q 6%float a6 inv_poly6 dinv_poly6).
      simpl; tauto.
    + exists (fun s c c2 c4 c6 c8 c10 c12 o => (8 * c8 * pow s 8)%float). intros q.
      apply (init_one_force pow mix_distance i j q 8%float a8 inv_poly8 dinv_poly8).
      simpl; tauto.
    + exists (fun s c c2 c4 c6 c8 c10 c12 o => (10 * c10 * pow s 10)%float). intros q.
      apply (init_one_force pow mix_distance i j q 10%float a10 inv_poly10 dinv_poly10).
      simpl; tauto.
    + exists (fun s c c2 c4 c6 c8 c10 c12 o => (12 * c12 * pow s 12)%float). intros q.
      apply (init_one_force pow mix_distance i j q 12%float a12 inv_poly12 dinv_poly12).
      simpl; tauto.
  - in_cases Hg.
    exists (fun s c c2 c4 c6 c8 c10 c12 o =>
              if negb (o =? 0) && (0 <? c)%float then
                (pow (s / c) 2 + pow (s / c) 4 + pow (s / c) 6 + pow (s / c) 8
                 + pow (s / c) 10 + pow (s / c) 12)%float
              else 0%float).
    intros q. apply init_one_offset.
Qed.

(** X7.  Resolving a configured pair again changes nothing: a second
    [init_one(i,j)] leaves every cell of every table as the first left it
    and returns the same cutoff. *)
Theorem init_one_twice_on_configured_pair (i j : Z) (p : PairInvPoly) :
  setflag p i j <> 0 ->
  (forall g a b, rd (resolved i j (resolved i j p)) g a b = rd (resolved i j p) g a b)
  /\ fst (init_one pow mix_distance i j (resolved i j p))
     = fst (init_one pow mix_distance i j p).
Proof.
  intros Hset.
  destruct (init_one_scalars pow mix_distance i j p) as (_ & Hsf & _ & Hof & _).
  pose proof (init_one_mirrored pow mix_distance i j p) as Hmir.
  assert (Hval : forall g, In g derived_fields ->
            exists F, rd (resolved i j p) g i j =
                      F (rd (resolved i j p) sigma i j) (rd (resolved i j p) cut i j)
                        (rd (resolved i j p) a2 i j) (rd (resolved i j p) a4 i j)
                        (rd (resolved i j p) a6 i j) (rd (resolved i j p) a8 i j)
                        (rd (resolved i j p) a10 i j) (rd (resolved i j p) a12 i j)
                        (offset_flag p)
                      /\ forall q, rd (resolved i j q) g i j =
                           F (rd (resolved i j q) sigma i j) (rd (resolved i j q) cut i j)
                             (rd (resolved i j q) a2 i j) (rd (resolved i j q) a4 i j)
                             (rd (resolved i j q) a6 i j) (rd (resolved i j q) a8 i j)
                             (rd (resolved i j q) a10 i j) (rd (resolved i j q) a12 i j)
                             (offset_flag q)).
  { intros g Hg. destruct (init_one_derived_value i j g Hg) as [F HF].
    exists F. split; [apply HF | exact HF]. }
  change (fst (init_one pow mix_distance i j p)) with (rd (resolved i j p) cut i j).
  revert Hsf Hof Hmir Hval.
  generalize (resolved i j p). intros p1 Hsf Hof Hmir Hval.
  assert (Hmix : init_mix mix_distance i j p1 = p1).
  { unfold init_mix. rewrite Hsf. now destruct (Z.eqb_spec (setflag p i j) 0). }
  assert (Hpar : forall g a b, ~ In g derived_fields ->
                               rd (resolved i j p1) g a b = rd p1 g a b).
  { intros g a b Hg. rewrite init_one_not_derived by exact Hg. now rewrite Hmix. }
  assert (Hij : forall g, rd (resolved i j p1) g i j = rd p1 g i j).
  { intros g. destruct (derived_fields_dec g) as [Hg|Hg]; [|now apply Hpar].
    destruct (Hval g Hg) as (F & HFp & HF).
    rewrite (HF p1), HFp.
    rewrite (Hpar sigma), (Hpar cut), (Hpar a2), (Hpar a4), (Hpar a6), (Hpar a8),
      (Hpar a10), (Hpar a12) by (apply parameters_not_derived; in_list).
    now rewrite Hof. }
  assert (Hall : forall g a b, rd (resolved i j p1) g a b = rd p1 g a b).
  { intros g a b.
    assert (Hcell : (a = i /\ b = j) \/ (a <> i \/ b <> j)) by lia.
    destruct Hcell as [[-> ->]|Hne]; [apply Hij|].
    assert (Hcell : (a = j /\ b = i) \/ (a <> j \/ b <> i)) by lia.
    destruct Hcell as [[-> ->]|Hne']; [|now apply init_one_other_cells].
    destruct (derived_fields_dec g) as [Hg|Hg]; [|now apply Hpar].
    rewrite (init_one_mirrored pow mix_distance i j p1 g Hg).
    rewrite (Hmir g Hg). apply Hij. }
  split; [exact Hall|].
  change (fst (init_one pow mix_distance i j p1)) with (rd (resolved i j p1) cut i j).
  apply Hall.
Qed.

End InitOneTwice.

Section KernelMore.

Variable sbmask : Z -> Z.
Variable NEIGHMASK : Z.
Variable ev_flags : Z -> Z -> Z * Z.

Lemma compute_pair_beyond eflag i xtmp ytmp ztmp itype jj w evdwl :
  let c := candidate_of sbmask NEIGHMASK w i xtmp ytmp ztmp jj in
  (cand_rsq c <? rd (pair w) cutsq itype (atom_type (atom w) (cand_j c)))%float
  = false ->
  compute_pair sbmask NEIGHMASK eflag i xtmp ytmp ztmp itype jj (w, evdwl)
  = (w, evdwl).
Proof.
  intros c Hlt. unfold compute_pair. cbv zeta.
  unfold c, candidate_of in Hlt. cbv zeta in Hlt. cbn [cand_rsq cand_j] in Hlt.
  rewrite Hlt. reflexivity.
Qed.

Lemma compute_pair_within eflag i xtmp ytmp ztmp itype jj w evdwl0 :
  let c := candidate_of sbmask NEIGHMASK w i xtmp ytmp ztmp jj in
  let jtype := atom_type (atom w) (cand_j c) in
  (cand_rsq c <? rd (pair w) cutsq itype jtype)%float = true ->
  exists evdwl,
    compute_pair sbmask NEIGHMASK eflag i xtmp ytmp ztmp itype jj (w, evdwl0)
    = (deposit i (cand_j c) (cand_delx c) (cand_dely c) (cand_delz c) evdwl
         (snd (fst (single i (cand_j c) itype jtype (cand_rsq c) 1
                      (cand_factor c) (pair w)))) w,
       evdwl).
Proof.
  intros c jtype Hlt.
  unfold compute_pair. cbv zeta.
  unfold c, candidate_of in Hlt. cbv zeta in Hlt. cbn [cand_rsq cand_j] in Hlt.
  unfold jtype, c, candidate_of in Hlt. cbv zeta in Hlt. cbn [cand_j] in Hlt.
  rewrite Hlt.
  unfold single, deposit, jtype, c, candidate_of. cbv zeta.
  cbn [fst snd cand_j cand_factor cand_delx cand_dely cand_delz cand_rsq].
  eexists.
  destruct (negb (force_newton_pair (force w) =? 0)%Z
            || (Z.land (list_firstneigh (neighlist w) i jj) NEIGHMASK
                <? atom_nlocal (atom w))%Z);
    reflexivity.
Qed.

Lemma deposit_same_inputs i j dx dy dz e fp w :
  same_inputs w (deposit i j dx dy dz e fp w).
Proof.
  unfold deposit. cbv zeta.
  destruct (negb (force_newton_pair (force w) =? 0)
            || (j <? atom_nlocal (atom w))).
  - cbn [evflag f_sub f_add set_f]. destruct (negb (evflag w =? 0)); repeat split.
  - cbn [evflag f_sub f_add set_f]. destruct (negb (evflag w =? 0)); repeat split.
Qed.

Lemma deposit_calls_off i j dx dy dz e fp w :
  evflag w = 0 -> calls (deposit i j dx dy dz e fp w) = calls w.
Proof.
  intros Hev. unfold deposit. cbv zeta.
  destruct (negb (force_newton_pair (force w) =? 0)
            || (j <? atom_nlocal (atom w)));
    cbn [evflag f_sub f_add set_f]; rewrite Hev; reflexivity.
Qed.

Lemma f_add_read i k v w a b :
  atom_f (atom (f_add i k v w)) a b
  = if (a =? i) && (b =? k) then (atom_f (atom w) i k + v)%float
    else atom_f (atom w) a b.
Proof. reflexivity. Qed.

Lemma f_sub_read i k v w a b :
  atom_f (atom (f_sub i k v w)) a b
  = if (a =? i) && (b =? k) then (atom_f (atom w) i k - v)%float
    else atom_f (atom w) a b.
Proof. reflexivity. Qed.

(** The forces [deposit] leaves. *)
Lemma deposit_forces i j dx dy dz e fp w :
  i <> j ->
  let f := atom_f (atom w) in
  let f' := atom_f (atom (deposit i j dx dy dz e fp w)) in
  let reaction := negb (force_newton_pair (force w) =? 0)
                  || (j <? atom_nlocal (atom w)) in
  (f' i 0%Z, f' i 1%Z, f' i 2%Z)
  = (f i 0%Z + dx * fp, f i 1%Z + dy * fp, f i 2%Z + dz * fp)%float
  /\ (f' j 0%Z, f' j 1%Z, f' j 2%Z)
     = (if reaction
        then (f j 0%Z - dx * fp, f j 1%Z - dy * fp, f j 2%Z - dz * fp)%float
        else (f j 0%Z, f j 1%Z, f j 2%Z))
  /\ (forall a k, (a <> i /\ a <> j) \/ ~ 0 <= k <= 2 -> f' a k = f a k).
Proof.
  intros Hij. cbv zeta. unfold deposit. cbv zeta.
  assert (Eij : (i =? j) = false) by now apply Z.eqb_neq.
  assert (Eji : (j =? i) = false) by (apply Z.eqb_neq; congruence).
  match goal with
  | |- context [if negb (evflag ?W =? 0) then call ?c ?W else ?W] =>
      assert (Hat : atom (if negb (evflag W =? 0) then call c W else W) = atom W)
        by (destruct (negb (evflag W =? 0)); reflexivity);
      rewrite Hat; clear Hat
  end.
  destruct (negb (force_newton_pair (force w) =? 0)
            || (j <? atom_nlocal (atom w)));
    rewrite ?f_sub_read, ?f_add_read, ?Z.eqb_refl, ?Eij, ?Eji;
    cbn [andb Z.eqb Pos.eqb];
    (split; [reflexivity|split; [reflexivity|]]);
    intros a k [[Ha Hb]|Hk];
    rewrite ?f_sub_read, ?f_add_read;
    repeat match goal with
           | |- context [(a =? ?x)] =>
               destruct (Z.eqb_spec a x); [try contradiction|]; cbn [andb]
           | |- context [(k =? ?x)] =>
               destruct (Z.eqb_spec k x); [try lia|]; cbn [andb]
           end; try reflexivity; try lia.
Qed.

Lemma compute_pair_calls_off eflag i xtmp ytmp ztmp itype jj w evdwl :
  evflag w = 0 ->
  calls (fst (compute_pair sbmask NEIGHMASK eflag i xtmp ytmp ztmp itype jj (w, evdwl)))
  = calls w.
Proof.
  intros Hev.
  destruct ((cand_rsq (candidate_of sbmask NEIGHMASK w i xtmp ytmp ztmp jj)
             <? rd (pair w) cutsq itype
                  (atom_type (atom w)
                     (cand_j (candidate_of sbmask NEIGHMASK w i xtmp ytmp ztmp jj))))%float)
    eqn:Hlt.
  - destruct (compute_pair_within eflag i xtmp ytmp ztmp itype jj w evdwl Hlt)
      as [e He].
    rewrite He. cbn [fst]. now apply deposit_calls_off.
  - now rewrite (compute_pair_beyond eflag i xtmp ytmp ztmp itype jj w evdwl Hlt).
Qed.

(** The world the loops of [compute] start from. *)
Lemma ev_init_same_inputs eflag vflag w :
  let w0 := ev_init ev_flags eflag vflag w in
  pair w0 = pair w /\ atom w0 = atom w /\ force w0 = force w
  /\ neighlist w0 = neighlist w
  /\ evflag w0 = fst (ev_flags eflag vflag)
  /\ vflag_fdotr w0 = snd (ev_flags eflag vflag)
  /\ calls w0 = calls w ++ [Call_ev_init eflag vflag].
Proof. cbv zeta. unfold ev_init. destruct (ev_flags eflag vflag). repeat split. Qed.

(** X8.  For a candidate [j] within the cutoff, other than [i] itself, the
    pass adds the separation scaled by the force-per-distance of [single] to
    the force on [i], subtracts the same from the force on [j] when the
    reaction is applied here ([newton_pair] set, or [j] a local atom) and
    leaves the force on [j] alone otherwise, and changes the force on no
    other atom. *)
Theorem compute_pair_moves_two_atoms (eflag i : Z) (xtmp ytmp ztmp : float)
        (itype jj : Z) (w : World) (evdwl0 : float) :
  let c := candidate_of sbmask NEIGHMASK w i xtmp ytmp ztmp jj in
  let jtype := atom_type (atom w) (cand_j c) in
  (cand_rsq c <? rd (pair w) cutsq itype jtype)%float = true ->
  i <> cand_j c ->
  let fp := snd (fst (single i (cand_j c) itype jtype (cand_rsq c) 1
                        (cand_factor c) (pair w))) in
  let f := atom_f (atom w) in
  let f' := atom_f (atom (fst (compute_pair sbmask NEIGHMASK eflag i xtmp ytmp
                                 ztmp itype jj (w, evdwl0)))) in
  let reaction := negb (force_newton_pair (force w) =? 0)
                  || (cand_j c <? atom_nlocal (atom w)) in
  (f' i 0%Z, f' i 1%Z, f' i 2%Z)
  = (f i 0%Z + cand_delx c * fp, f i 1%Z + cand_dely c * fp,
     f i 2%Z + cand_delz c * fp)%float
  /\ (f' (cand_j c) 0%Z, f' (cand_j c) 1%Z, f' (cand_j c) 2%Z)
     = (if reaction
        then (f (cand_j c) 0%Z - cand_delx c * fp, f (cand_j c) 1%Z - cand_dely c * fp,
              f (cand_j c) 2%Z - cand_delz c * fp)%float
        else (f (cand_j c) 0%Z, f (cand_j c) 1%Z, f (cand_j c) 2%Z))
  /\ (forall a k, (a <> i /\ a <> cand_j c) \/ ~ 0 <= k <= 2 -> f' a k = f a k).
Proof.
  intros c jtype Hlt Hij fp f f' reaction.
  destruct (compute_pair_within eflag i xtmp ytmp ztmp itype jj w evdwl0 Hlt)
    as [e He].
  unfold f'. rewrite He. cbn [fst].
  exact (deposit_forces i (cand_j c) (cand_delx c) (cand_dely c) (cand_delz c)
           e fp w Hij).
Qed.

Lemma compute_loops_from eflag (w0 : World) (P : World * float -> Prop) :
  P (w0, 0%float) ->
  (forall ii jj t e,
      0 <= ii < list_inum (neighlist w0) ->
      same_inputs w0 t ->
      0 <= jj < list_numneigh (neighlist w0) (list_ilist (neighlist w0) ii) ->
      P (t, e) ->
      P (compute_pair sbmask NEIGHMASK eflag (list_ilist (neighlist w0) ii)
           (atom_x (atom w0) (list_ilist (neighlist w0) ii) 0)
           (atom_x (atom w0) (list_ilist (neighlist w0) ii) 1)
           (atom_x (atom w0) (list_ilist (neighlist w0) ii) 2)
           (atom_type (atom w0) (list_ilist (neighlist w0) ii)) jj (t, e))) ->
  P (for_below 0 (list_inum (neighlist w0)) (compute_atom sbmask NEIGHMASK eflag)
       (w0, 0%float))
  /\ same_inputs w0 (fst (for_below 0 (list_inum (neighlist w0))
                            (compute_atom sbmask NEIGHMASK eflag) (w0, 0%float))).
Proof.
  intros H0 Hstep.
  apply (for_below_preserves (fun te => P te /\ same_inputs w0 (fst te)));
    [split; [exact H0 | apply same_inputs_refl]|].
  intros ii [t e] Hii [Ht Hs]. cbn [fst] in Hs.
  unfold compute_atom. cbv zeta. cbn [fst].
  destruct Hs as (Hp & Hx & Hty & Hnl & Hfo & Hnb & Hev & Hfd).
  rewrite Hnb, Hx, Hty.
  apply (for_below_preserves (fun te => P te /\ same_inputs w0 (fst te))).
  - split; [exact Ht | repeat split; assumption].
  - intros jj [u d] Hjj [Hu Hsu]. cbn [fst] in Hsu. split.
    + now apply Hstep.
    + eapply same_inputs_trans; [exact Hsu|].
      apply compute_pair_same_inputs.
Qed.

End KernelMore.

Section KernelPass.

Variable sbmask : Z -> Z.
Variable NEIGHMASK : Z.
Variable ev_flags : Z -> Z -> Z * Z.

(** The end of [compute], after the loops. *)
Lemma compute_unfold eflag vflag w :
  compute sbmask NEIGHMASK ev_flags eflag vflag w
  = let w1 := fst (for_below 0 (list_inum (neighlist (ev_init ev_flags eflag vflag w)))
                     (compute_atom sbmask NEIGHMASK eflag)
                     (ev_init ev_flags eflag vflag w, 0%float)) in
    if negb (vflag_fdotr w1 =? 0) then call Call_virial_fdotr_compute w1 else w1.
Proof.
  unfold compute. cbv zeta.
  destruct (for_below 0 (list_inum (neighlist (ev_init ev_flags eflag vflag w)))
              (compute_atom sbmask NEIGHMASK eflag)
              (ev_init ev_flags eflag vflag w, 0%float)).
  reflexivity.
Qed.

(** X9.  When every candidate of the neighbor list fails the cutoff test,
    the pass changes no force and tallies nothing: its only calls are
    [ev_init] and, if asked for, [virial_fdotr_compute].  A list without
    atoms, or atoms without neighbors, is the first case of it. *)
Theorem compute_without_pair_in_range (eflag vflag : Z) (w : World) :
  (forall ii jj,
      0 <= ii < list_inum (neighlist w) ->
      0 <= jj < list_numneigh (neighlist w) (list_ilist (neighlist w) ii) ->
      beyond_cutoff sbmask NEIGHMASK w ii jj) ->
  atom (compute sbmask NEIGHMASK ev_flags eflag vflag w) = atom w
  /\ calls (compute sbmask NEIGHMASK ev_flags eflag vflag w)
     = calls w ++ calls_without_tally ev_flags eflag vflag.
Proof.
  intros Hall. rewrite compute_unfold. cbv zeta.
  destruct (ev_init_same_inputs ev_flags eflag vflag w)
    as (Hp & Ha & Hf & Hn & Hev & Hfd & Hc).
  set (w0 := ev_init ev_flags eflag vflag w) in *.
  destruct (compute_loops_from sbmask NEIGHMASK eflag w0
              (fun te => te = (w0, 0%float))) as [Hloop _].
  - reflexivity.
  - intros ii jj t e Hii _ Hjj Hte. injection Hte as -> ->.
    apply compute_pair_beyond.
    rewrite Hn in Hii, Hjj.
    pose proof (Hall ii jj Hii Hjj) as Hb. unfold beyond_cutoff in Hb.
    cbv zeta in Hb. unfold candidate_of in *. cbv zeta in *.
    cbn [cand_rsq cand_j] in *. rewrite Hp, Ha, Hn. exact Hb.
  - rewrite Hloop. cbn [fst]. rewrite Hfd. unfold calls_without_tally.
    destruct (negb (snd (ev_flags eflag vflag) =? 0)).
    + cbn [call atom calls]. rewrite Ha, Hc, <- app_assoc. split; reflexivity.
    + rewrite Ha, Hc. split; reflexivity.
Qed.

(** X10.  With tallies off ([ev_init] leaves [evflag] zero) the pass never
    calls [ev_tally], whatever the neighbor list holds: its only calls are
    [ev_init] and, if asked for, [virial_fdotr_compute]. *)
Theorem compute_without_tally (eflag vflag : Z) (w : World) :
  fst (ev_flags eflag vflag) = 0 ->
  calls (compute sbmask NEIGHMASK ev_flags eflag vflag w)
  = calls w ++ calls_without_tally ev_flags eflag vflag.
Proof.
  intros Hoff. rewrite compute_unfold. cbv zeta.
  destruct (ev_init_same_inputs ev_flags eflag vflag w)
    as (Hp & Ha & Hf & Hn & Hev & Hfd & Hc).
  set (w0 := ev_init ev_flags eflag vflag w) in *.
  destruct (compute_loops_from sbmask NEIGHMASK eflag w0
              (fun te => calls (fst te) = calls w0)) as [Hloop Hsame].
  - reflexivity.
  - intros ii jj t e _ Hs _ Hte. cbn [fst] in Hte. rewrite <- Hte.
    apply compute_pair_calls_off.
    destruct Hs as (_ & _ & _ & _ & _ & _ & Hevt & _). congruence.
  - cbv beta in Hloop.
    destruct Hsame as (_ & _ & _ & _ & _ & _ & _ & Hfdt).
    rewrite Hfdt, Hfd. unfold calls_without_tally.
    destruct (negb (snd (ev_flags eflag vflag) =? 0)).
    + cbn [call calls]. rewrite Hloop, Hc, <- app_assoc. reflexivity.
    + rewrite Hloop, Hc. reflexivity.
Qed.

(** X11.  A pass reads the positions, the types, the number of local atoms,
    the exclusion factors, [newton_pair] and the neighbor list, and writes
    none of them. *)
Theorem compute_leaves_its_inputs (eflag vflag : Z) (w : World) :
  let w' := compute sbmask NEIGHMASK ev_flags eflag vflag w in
  atom_x (atom w') = atom_x (atom w)
  /\ atom_type (atom w') = atom_type (atom w)
  /\ atom_nlocal (atom w') = atom_nlocal (atom w)
  /\ force w' = force w
  /\ neighlist w' = neighlist w.
Proof.
  cbv zeta. rewrite compute_unfold. cbv zeta.
  destruct (ev_init_same_inputs ev_flags eflag vflag w)
    as (Hp & Ha & Hf & Hn & Hev & Hfd & Hc).
  set (w0 := ev_init ev_flags eflag vflag w) in *.
  destruct (compute_loops_from sbmask NEIGHMASK eflag w0 (fun _ => True))
    as [_ Hsame]; [exact I | intros; exact I |].
  destruct Hsame as (_ & Hx & Hty & Hnl & Hfo & Hnb & _ & _).
  destruct (negb (vflag_fdotr _ =? 0)); cbn [call atom force neighlist];
    rewrite ?Hx, ?Hty, ?Hnl, ?Hfo, ?Hnb, ?Ha, ?Hf, ?Hn; repeat split.
Qed.

End KernelPass.

Lemma le_bytes_length (n : nat) (v : Z) : List.length (le_bytes n v) = n.
Proof. revert v. induction n as [|n IH]; intros v; simpl; [|rewrite IH]; reflexivity. Qed.

Lemma le_value_le_bytes (n : nat) (v : Z) :
  le_value (le_bytes n v) = v mod 256 ^ Z.of_nat n.
Proof.
  revert v. induction n as [|n IH]; intros v.
  - simpl. now rewrite Z.mod_1_r.
  - cbn [le_bytes le_value]. rewrite IH.
    rewrite Nat2Z.inj_succ, Z.pow_succ_r by lia.
    rewrite Z.rem_mul_r by (try apply Z.pow_pos_nonneg; lia). reflexivity.
Qed.

Lemma int_of_bytes_int_bytes (v : Z) :
  - 2 ^ 31 <= v < 2 ^ 31 -> int_of_bytes (int_bytes v) = v.
Proof.
  intros Hv. unfold int_of_bytes, int_bytes. rewrite le_value_le_bytes.
  change (256 ^ Z.of_nat 4) with (2 ^ 32).
  rewrite Z.mod_mod by (cbv; discriminate).
  change (2 ^ 32) with 4294967296 in *. change (2 ^ 31) with 2147483648 in *.
  destruct (Z.ltb_spec (v mod 4294967296) 2147483648) as [H|H];
    Z.to_euclidean_division_equations; lia.
Qed.

Lemma digits2_pos_bounds (m : positive) :
  2 ^ (Zpos (digits2_pos m) - 1) <= Zpos m < 2 ^ Zpos (digits2_pos m).
Proof.
  induction m as [m IH|m IH|]; cbn [digits2_pos].
  - rewrite Pos2Z.inj_succ.
    replace (Z.succ (Zpos (digits2_pos m)) - 1) with (Z.succ (Zpos (digits2_pos m) - 1)) by lia.
    rewrite !Z.pow_succ_r by lia. lia.
  - rewrite Pos2Z.inj_succ.
    replace (Z.succ (Zpos (digits2_pos m)) - 1) with (Z.succ (Zpos (digits2_pos m) - 1)) by lia.
    rewrite !Z.pow_succ_r by lia. lia.
  - simpl. lia.
Qed.

(** The mantissa and the exponent of a finite double. *)
Lemma finite_double_shape (d : float) (s : bool) (m : positive) (e : Z) :
  Prim2SF d = S754_finite s m e ->
  (Zpos m < 2 ^ 52 /\ e = -1074)
  \/ (2 ^ 52 <= Zpos m < 2 ^ 53 /\ -1074 <= e <= 971).
Proof.
  intros Hd. pose proof (Prim2SF_valid d) as Hv. rewrite Hd in Hv.
  unfold SpecFloat.valid_binary, bounded, canonical_mantissa, fexp, emin in Hv.
  apply andb_true_iff in Hv. destruct Hv as [Hc He].
  apply Z.eqb_eq in Hc. apply Z.leb_le in He.
  change prec with 53 in *. change emax with 1024 in *.
  pose proof (digits2_pos_bounds m) as [Hlo Hhi].
  set (dg := Zpos (digits2_pos m)) in *.
  assert (Hdg : 1 <= dg) by (unfold dg; lia).
  destruct (Z.max_spec (dg + e - 53) (3 - 1024 - 53)) as [[H1 H2]|[H1 H2]];
    rewrite H2 in Hc.
  - destruct (Z_lt_le_dec dg 53) as [Hlt|Hge].
    + left. split; [|lia].
      apply Z.lt_le_trans with (1 := Hhi). apply Z.pow_le_mono_r; lia.
    + right. assert (dg = 53) by lia.
      replace dg with 53 in * by lia. change (53 - 1) with 52 in Hlo. lia.
  - right. assert (dg = 53) by lia.
    replace dg with 53 in * by lia. change (53 - 1) with 52 in Hlo. lia.
Qed.

Lemma bits_double_double_bits (d : float) : bits_double (double_bits d) = d.
Proof.
  rewrite <- (SF2Prim_Prim2SF d) at 2.
  unfold double_bits, bits_double.
  destruct (Prim2SF d) as [s|s| |s m e] eqn:Hd.
  - destruct s; reflexivity.
  - destruct s; reflexivity.
  - reflexivity.
  - destruct (finite_double_shape d s m e Hd) as [[Hm He]|[Hm He]].
    + subst e. rewrite (proj2 (Z.ltb_lt _ _) Hm).
      change (2 ^ 52) with 4503599627370496 in *.
      change (2 ^ 63) with 9223372036854775808 in *.
      assert (Hq : ((if s then 9223372036854775808 else 0) + Zpos m)
                   / 4503599627370496 = if s then 2048 else 0).
      { destruct s; Z.to_euclidean_division_equations; lia. }
      assert (Hr : ((if s then 9223372036854775808 else 0) + Zpos m)
                   mod 4503599627370496 = Zpos m).
      { destruct s; Z.to_euclidean_division_equations; lia. }
      assert (Hs : negb (((if s then 9223372036854775808 else 0) + Zpos m)
                         / 9223372036854775808 =? 0) = s).
      { destruct s; cbn [negb];
          [replace ((9223372036854775808 + Zpos m) / 9223372036854775808) with 1
             by (Z.to_euclidean_division_equations; lia)
          |replace ((0 + Zpos m) / 9223372036854775808) with 0
             by (Z.to_euclidean_division_equations; lia)]; reflexivity. }
      rewrite Hq, Hr, Hs. destruct s; reflexivity.
    + assert (Hnlt : (Zpos m <? 2 ^ 52) = false) by (apply Z.ltb_ge; lia).
      rewrite Hnlt.
      change (2 ^ 52) with 4503599627370496 in *.
      change (2 ^ 53) with 9007199254740992 in *.
      change (2 ^ 63) with 9223372036854775808 in *.
      set (b := (if s then 9223372036854775808 else 0)
                + (e + 1075) * 4503599627370496 + (Zpos m - 4503599627370496)).
      assert (Hq : (b / 4503599627370496) mod 2048 = e + 1075).
      { unfold b. destruct s; Z.to_euclidean_division_equations; lia. }
      assert (Hr : b mod 4503599627370496 = Zpos m - 4503599627370496).
      { unfold b. destruct s; Z.to_euclidean_division_equations; lia. }
      assert (Hs : negb (b / 9223372036854775808 =? 0) = s).
      { unfold b. destruct s; cbn [negb].
        - replace ((9223372036854775808 + (e + 1075) * 4503599627370496
                    + (Zpos m - 4503599627370496)) / 9223372036854775808) with 1
            by (Z.to_euclidean_division_equations; lia).
          reflexivity.
        - replace ((0 + (e + 1075) * 4503599627370496
                    + (Zpos m - 4503599627370496)) / 9223372036854775808) with 0
            by (Z.to_euclidean_division_equations; lia).
          reflexivity. }
      rewrite Hq, Hr, Hs.
      replace (e + 1075 =? 2047) with false by (symmetry; apply Z.eqb_neq; lia).
      replace (e + 1075 =? 0) with false by (symmetry; apply Z.eqb_neq; lia).
      replace (Zpos m - 4503599627370496 + 4503599627370496) with (Zpos m) by lia.
      replace (e + 1075 - 1075) with e by lia. reflexivity.
Qed.

Lemma double_bits_range (d : float) : 0 <= double_bits d < 2 ^ 64.
Proof.
  unfold double_bits.
  change (2 ^ 64) with 18446744073709551616.
  change (2 ^ 63) with 9223372036854775808.
  change (2 ^ 52) with 4503599627370496.
  change (2 ^ 51) with 2251799813685248.
  destruct (Prim2SF d) as [s|s| |s m e] eqn:Hd.
  - destruct s; lia.
  - destruct s; lia.
  - lia.
  - destruct (finite_double_shape d s m e Hd) as [[Hm He]|[Hm He]];
      change (2 ^ 52) with 4503599627370496 in *;
      change (2 ^ 53) with 9007199254740992 in *;
      destruct (Zpos m <? 4503599627370496); destruct s; lia.
Qed.

(** What [fwrite] stores of a double, [fread] gives back. *)
Lemma double_of_bytes_double_bytes (d : float) :
  double_of_bytes (double_bytes d) = d.
Proof.
  unfold double_of_bytes, double_bytes. rewrite le_value_le_bytes.
  change (256 ^ Z.of_nat 8) with (2 ^ 64).
  rewrite Z.mod_small by apply double_bits_range.
  apply bits_double_double_bits.
Qed.

Lemma sfread_app (size : nat) (a rest : stream) (q : PairInvPoly) :
  List.length a = size -> sfread size (a ++ rest) q = (Done (a, rest), q).
Proof.
  intros Hlen. unfold sfread.
  replace (List.length (a ++ rest) <? size)%nat with false
    by (symmetry; apply Nat.ltb_ge; rewrite length_app; lia).
  unfold ret. subst size.
  rewrite firstn_app, Nat.sub_diag, firstn_all, skipn_app, Nat.sub_diag, skipn_all.
  cbn [firstn skipn]. now rewrite app_nil_r.
Qed.

Lemma sfread_double_app (d : float) (rest : stream) (q : PairInvPoly) :
  sfread_double (double_bytes d ++ rest) q = (Done (d, rest), q).
Proof.
  unfold sfread_double, bind.
  rewrite sfread_app by apply le_bytes_length.
  cbn [fst snd]. unfold ret. now rewrite double_of_bytes_double_bytes.
Qed.

Lemma sfread_int_app (v : Z) (rest : stream) (q : PairInvPoly) :
  int_range v -> sfread_int (int_bytes v ++ rest) q = (Done (v, rest), q).
Proof.
  intros Hv. unfold sfread_int, bind.
  rewrite sfread_app by apply le_bytes_length.
  cbn [fst snd]. unfold ret. now rewrite int_of_bytes_int_bytes.
Qed.

Lemma write_restart_settings_app (p : PairInvPoly) (fp : stream) :
  write_restart_settings p fp
  = fp ++ double_bytes (cut_global p) ++ int_bytes (offset_flag p)
       ++ int_bytes (mix_flag p).
Proof.
  unfold write_restart_settings, fwrite_double, fwrite_int. cbv zeta.
  now rewrite <- !app_assoc.
Qed.

Lemma read_restart_settings_app (cg : float) (oflag mflag : Z) (rest : stream)
      (q : PairInvPoly) :
  int_range oflag -> int_range mflag ->
  read_restart_settings
    (double_bytes cg ++ int_bytes oflag ++ int_bytes mflag ++ rest) q
  = (Done rest, with_settings cg oflag mflag q).
Proof.
  intros Ho Hm. unfold read_restart_settings.
  unfold bind at 1. rewrite sfread_double_app.
  unfold bind at 1. unfold modify at 1. cbn [fst snd].
  unfold bind at 1. rewrite (sfread_int_app oflag _ _ Ho).
  unfold bind at 1. unfold modify at 1. cbn [fst snd].
  unfold bind at 1. rewrite (sfread_int_app mflag _ _ Hm).
  unfold bind at 1. unfold modify at 1. cbn [fst snd].
  reflexivity.
Qed.

(** X12.  The settings survive the restart stream: what
    [write_restart_settings] appends, [read_restart_settings] reads back as
    the same [cut_global] (bit for bit, NaN and signed zero included),
    [offset_flag] and [mix_flag], leaving the rest of the stream as it is and
    every table as it was. *)
Theorem restart_settings_round_trip (p q : PairInvPoly) (rest : stream) :
  int_range (offset_flag p) -> int_range (mix_flag p) ->
  exists q',
    read_restart_settings (write_restart_settings p [] ++ rest) q = (Done rest, q')
    /\ cut_global q' = cut_global p
    /\ offset_flag q' = offset_flag p
    /\ mix_flag q' = mix_flag p
    /\ allocated q' = allocated q /\ setflag q' = setflag q /\ dbl q' = dbl q.
Proof.
  intros Ho Hm. rewrite write_restart_settings_app. cbn [app].
  rewrite <- !app_assoc.
  rewrite (read_restart_settings_app _ _ _ rest q Ho Hm).
  eexists. split; [reflexivity|]. repeat split.
Qed.

Section Unset.

Variable memory : Memory.
Variable n : Z.
Variable p : PairInvPoly.

Let wbody (i j : Z) (fp : stream) : stream :=
  let fp := fwrite_int (setflag p i j) fp in
  if negb (setflag p i j =? 0) then
    let fp := fwrite_double (rd p sigma i j) fp in
    fwrite_double (rd p cut i j) fp
  else fp.

Let rbody (i j : Z) (fp : stream) : M stream :=
  bind (sfread_int fp) (fun r =>
  bind (modify (wr_setflag i j (fst r))) (fun _ =>
  let fp := snd r in
  bind get (fun p =>
  if negb (setflag p i j =? 0) then
    bind (read_entry sigma i j fp) (fun fp =>
    bind (read_entry a2 i j fp) (fun fp =>
    bind (read_entry a4 i j fp) (fun fp =>
    bind (read_entry a6 i j fp) (fun fp =>
    bind (read_entry a8 i j fp) (fun fp =>
    bind (read_entry a10 i j fp) (fun fp =>
    bind (read_entry a12 i j fp) (fun fp =>
    read_entry cut i j fp)))))))
  else ret fp))).

Lemma write_restart_loops (fp : stream) :
  write_restart n p fp
  = for_to 1 n (fun i => for_to i n (wbody i)) (write_restart_settings p fp).
Proof. reflexivity. Qed.

Lemma read_restart_loops (fp : stream) :
  read_restart memory n fp
  = bind (read_restart_settings fp) (fun fp =>
    bind (modify (allocate memory n)) (fun _ =>
    for_to_M 1 n (fun i => for_to_M i n (rbody i)) fp)).
Proof. reflexivity. Qed.

Hypothesis unset : forall i j, 1 <= i <= j -> j <= n -> setflag p i j = 0.

Lemma write_row_unset (i : Z) (k : nat) :
  1 <= i ->
  forall j0 fp, i <= j0 -> j0 + Z.of_nat k <= n + 1 ->
    iter_up k j0 (wbody i) fp = fp ++ repeat 0 (4 * k).
Proof.
  intros Hi. induction k as [|k IH]; intros j0 fp Hj0 Hk.
  - simpl. now rewrite app_nil_r.
  - cbn [iter_up]. rewrite IH by lia.
    unfold wbody at 1. rewrite (unset i j0) by lia. cbv zeta. cbn [Z.eqb negb].
    unfold fwrite_int. rewrite <- app_assoc. f_equal.
    replace (4 * S k)%nat with (4 + 4 * k)%nat by lia.
    now rewrite repeat_app.
Qed.

Lemma write_rows_unset (m : nat) :
  forall i0 fp, 1 <= i0 -> i0 + Z.of_nat m <= n + 1 ->
    iter_up m i0 (fun i => for_to i n (wbody i)) fp
    = fp ++ repeat 0 (4 * rows_cells n m i0).
Proof.
  induction m as [|m IH]; intros i0 fp Hi0 Hm.
  - simpl. now rewrite app_nil_r.
  - cbn [iter_up rows_cells]. rewrite IH by lia.
    unfold for_to. rewrite write_row_unset by lia.
    rewrite <- app_assoc. f_equal.
    rewrite Nat.mul_add_distr_l. now rewrite repeat_app.
Qed.

(** What the reader keeps while it reads cleared flags. *)
Variable Inv : PairInvPoly -> Prop.
Hypothesis Inv_clear : forall i j q, Inv q -> Inv (wr_setflag i j 0 q).

Lemma read_row_unset (i : Z) (k : nat) :
  forall j0 rest q, Inv q ->
    exists q', iter_up_M k j0 (rbody i) (repeat 0 (4 * k) ++ rest) q = (Done rest, q')
               /\ Inv q'.
Proof.
  induction k as [|k IH]; intros j0 rest q Hq.
  - exists q. split; [reflexivity | exact Hq].
  - cbn [iter_up_M].
    replace (4 * S k)%nat with (4 + 4 * k)%nat by lia.
    rewrite repeat_app, <- app_assoc.
    change (repeat 0 4) with (int_bytes 0).
    unfold bind at 1. unfold rbody at 1.
    unfold bind at 1. rewrite sfread_int_app by (unfold int_range; cbv; split; discriminate || reflexivity).
    unfold bind at 1. unfold modify at 1. cbn [fst snd].
    unfold bind at 1. unfold get at 1.
    assert (Hflag : setflag (wr_setflag i j0 0 q) i j0 = 0)
      by (unfold wr_setflag; cbn [setflag]; apply tset_eq).
    rewrite Hflag. cbn [Z.eqb negb]. unfold ret at 1.
    apply IH. now apply Inv_clear.
Qed.

Lemma read_rows_unset (m : nat) :
  forall i0 rest q, Inv q ->
    exists q',
      iter_up_M m i0 (fun i => for_to_M i n (rbody i))
                (repeat 0 (4 * rows_cells n m i0) ++ rest) q = (Done rest, q')
      /\ Inv q'.
Proof.
  induction m as [|m IH]; intros i0 rest q Hq.
  - exists q. split; [reflexivity | exact Hq].
  - cbn [iter_up_M rows_cells].
    rewrite Nat.mul_add_distr_l, repeat_app, <- app_assoc.
    unfold bind at 1. unfold for_to_M at 1.
    destruct (read_row_unset i0 (Z.to_nat (n + 1 - i0)) i0
                (repeat 0 (4 * rows_cells n m (i0 + 1)) ++ rest) q Hq)
      as (q1 & Hrow & Hq1).
    rewrite Hrow. now apply IH.
Qed.

End Unset.

(** X13.  An object none of whose pairs is configured survives the restart
    stream: [read_restart] reads to its end what [write_restart] wrote,
    restores the three settings, allocates the tables and leaves every pair
    [(i,j)], [1 <= i <= j <= ntypes], unset. *)
Theorem restart_round_trip_without_pairs (memory : Memory) (n : Z)
        (p q : PairInvPoly) :
  (forall i j, 1 <= i <= j -> j <= n -> setflag p i j = 0) ->
  int_range (offset_flag p) -> int_range (mix_flag p) ->
  exists q',
    read_restart memory n (write_restart n p []) q = (Done [], q')
    /\ cut_global q' = cut_global p
    /\ offset_flag q' = offset_flag p
    /\ mix_flag q' = mix_flag p
    /\ allocated q' = 1
    /\ (forall i j, 1 <= i <= j -> j <= n -> setflag q' i j = 0).
Proof.
  intros Hunset Ho Hm.
  assert (Hw : write_restart n p []
               = (double_bytes (cut_global p) ++ int_bytes (offset_flag p)
                  ++ int_bytes (mix_flag p))
                 ++ (repeat 0 (4 * rows_cells n (Z.to_nat (n + 1 - 1)) 1) ++ [])).
  { rewrite write_restart_loops, write_restart_settings_app, app_nil_l, app_nil_r.
    unfold for_to.
    destruct (Z_lt_le_dec n 0) as [Hneg|Hpos].
    - replace (Z.to_nat (n + 1 - 1)) with O by lia. cbn [iter_up rows_cells].
      change (repeat 0 (4 * 0)) with (@nil Z). now rewrite app_nil_r.
    - now rewrite (write_rows_unset n p Hunset) by lia. }
  rewrite Hw, read_restart_loops, <- !app_assoc.
  unfold bind at 1. rewrite (read_restart_settings_app _ _ _ _ q Ho Hm).
  unfold bind at 1. unfold modify at 1.
  set (q0 := allocate memory n
               (with_settings (cut_global p) (offset_flag p) (mix_flag p) q)).
  pose (Inv := fun t : PairInvPoly =>
    cut_global t = cut_global p /\ offset_flag t = offset_flag p
    /\ mix_flag t = mix_flag p /\ allocated t = 1
    /\ (forall i j, 1 <= i <= j -> j <= n -> setflag t i j = 0)).
  assert (Hq0 : Inv q0).
  { destruct (allocate_spec memory n
                (with_settings (cut_global p) (offset_flag p) (mix_flag p) q))
      as (A1 & A3 & A4 & A5 & A6 & _).
    unfold Inv, q0. repeat split; try assumption.
    intros i j Hij Hj. rewrite A6.
    destruct (Z.leb_spec 1 i), (Z.leb_spec i j), (Z.leb_spec j n);
      simpl; try reflexivity; lia. }
  assert (Hclear : forall i j t, Inv t -> Inv (wr_setflag i j 0 t)).
  { intros i j t (I1 & I2 & I3 & I4 & I6). unfold Inv.
    repeat split; try assumption.
    intros a b Hab Hb. unfold wr_setflag, tset. cbn [setflag].
    destruct ((a =? i) && (b =? j)); [reflexivity | now apply I6]. }
  unfold for_to_M.
  destruct (read_rows_unset n Inv Hclear (Z.to_nat (n + 1 - 1)) 1 [] q0 Hq0)
    as (q' & Hrun & Hq').
  exists q'. split; [exact Hrun|]. exact Hq'.
Qed.

Lemma restart_round_trip_without_pairs_witness :
  (forall i j, 1 <= i <= j -> j <= 3 -> setflag fresh i j = 0)
  /\ exists q', read_restart zero_filled 3 (write_restart 3 fresh []) fresh
                = (Done [], q').
Proof.
  assert (H : forall i j, 1 <= i <= j -> j <= 3 -> setflag fresh i j = 0)
    by reflexivity.
  split; [exact H|].
  destruct (restart_round_trip_without_pairs zero_filled 3 fresh fresh H)
    as (q' & Hrun & _).
  - unfold int_range. simpl. lia.
  - unfold int_range. simpl. lia.
  - exists q'. exact Hrun.
Defined.

Lemma restart_settings_round_trip_witness :
  int_range (offset_flag fresh)
  /\ exists q', read_restart_settings (write_restart_settings fresh [] ++ [7; 7]) fresh
                = (Done [7; 7], q').
Proof.
  assert (H : int_range (offset_flag fresh)) by (unfold int_range; simpl; lia).
  split; [exact H|].
  destruct (restart_settings_round_trip fresh fresh [7; 7] H H) as (q' & Hrun & _).
  exists q'. exact Hrun.
Defined.

Section SettingsRejects.

Variable ntypes : Z.
Variable numeric : string -> option float.

(** X14.  [settings] rejects a command that has not exactly one word, and
    one whose word is not a number; the object is then exactly as it was: the
    global cutoff is not assigned and no pair cutoff is swept. *)
Theorem settings_rejects_without_writing (arg : list string) (p : PairInvPoly) :
  List.length arg <> 1%nat \/ numeric (arg_at arg 0) = None ->
  exists msg, settings ntypes numeric arg p = (Raised msg, p).
Proof.
  intros Hbad. unfold settings.
  destruct (Z.eqb_spec (Z.of_nat (List.length arg)) 1) as [Hone|Hne]; cbn [negb].
  - destruct Hbad as [Hlen|Hnum]; [lia|].
    unfold bind, utils_numeric. rewrite Hnum. eexists. reflexivity.
  - eexists. reflexivity.
Qed.

End SettingsRejects.

Lemma settings_rejects_without_writing_witness :
  List.length ["2.5"; "3.0"] <> 1%nat
  /\ exists msg, settings 1 numeric_words ["2.5"; "3.0"] fresh = (Raised msg, fresh).
Proof.
  assert (H : List.length ["2.5"; "3.0"] <> 1%nat) by (simpl; lia).
  split; [exact H|].
  exact (settings_rejects_without_writing 1 numeric_words ["2.5"; "3.0"] fresh
           (or_introl H)).
Defined.

Section KernelTallies.

Variable sbmask : Z -> Z.
Variable NEIGHMASK : Z.
Variable ev_flags : Z -> Z -> Z * Z.

Lemma compute_pair_within_energy eflag i xtmp ytmp ztmp itype jj w evdwl0 :
  let c := candidate_of sbmask NEIGHMASK w i xtmp ytmp ztmp jj in
  let jtype := atom_type (atom w) (cand_j c) in
  (cand_rsq c <? rd (pair w) cutsq itype jtype)%float = true ->
  let r := fst (single i (cand_j c) itype jtype (cand_rsq c) 1
                       (cand_factor c) (pair w)) in
  let evdwl := if negb (eflag =? 0) then fst r else evdwl0 in
  compute_pair sbmask NEIGHMASK eflag i xtmp ytmp ztmp itype jj (w, evdwl0)
  = (deposit i (cand_j c) (cand_delx c) (cand_dely c) (cand_delz c)
             evdwl (snd r) w,
     evdwl).
Proof.
  intros c jtype Hlt r evdwl.
  unfold compute_pair. cbv zeta.
  unfold c, candidate_of in Hlt. cbv zeta in Hlt. cbn [cand_rsq cand_j] in Hlt.
  unfold jtype, c, candidate_of in Hlt. cbv zeta in Hlt. cbn [cand_j] in Hlt.
  rewrite Hlt.
  unfold evdwl, r, single, deposit, jtype, c, candidate_of. cbv zeta.
  cbn [fst snd cand_j cand_factor cand_delx cand_dely cand_delz cand_rsq].
  rewrite (Dbl.mul_comm _ (force_special_lj (force w)
             (sbmask (list_firstneigh (neighlist w) i jj)))).
  destruct (negb (eflag =? 0)%Z),
    (negb (force_newton_pair (force w) =? 0)%Z
     || (Z.land (list_firstneigh (neighlist w) i jj) NEIGHMASK
         <? atom_nlocal (atom w))%Z);
    reflexivity.
Qed.

(** The calls [deposit] adds. *)
Lemma deposit_calls i j dx dy dz e fp w :
  calls (deposit i j dx dy dz e fp w) = calls w
  \/ calls (deposit i j dx dy dz e fp w)
     = calls w ++ [Call_ev_tally i j (atom_nlocal (atom w))
                     (force_newton_pair (force w)) e 0 fp dx dy dz].
Proof.
  unfold deposit. cbv zeta.
  destruct (negb (force_newton_pair (force w) =? 0)
            || (j <? atom_nlocal (atom w)));
    cbn [evflag f_sub f_add set_f]; destruct (negb (evflag w =? 0));
    [right|left|right|left]; reflexivity.
Qed.

End KernelTallies.

Section KernelTalliesPass.

Variable sbmask : Z -> Z.
Variable NEIGHMASK : Z.
Variable ev_flags : Z -> Z -> Z * Z.

(** X15.  Every [ev_tally] a pass makes carries, for its pair, the
    force-per-distance that [single] writes and, when energy is asked for,
    the energy that [single] returns, for the types of the two atoms, the
    squared length of the separation tallied and the exclusion factor of the
    neighbor entry; the Coulomb energy tallied is always zero. *)
Theorem compute_tallies_what_single_gives (eflag vflag : Z) (w : World)
        (c : host_call) :
  In c (calls (compute sbmask NEIGHMASK ev_flags eflag vflag w)) ->
  In c (calls w) \/ tally_of_single eflag w c.
Proof.
  rewrite compute_unfold. cbv zeta.
  destruct (ev_init_same_inputs ev_flags eflag vflag w)
    as (Hp & Ha & Hf & Hn & Hev & Hfd & Hc).
  set (w0 := ev_init ev_flags eflag vflag w) in *.
  pose (P := fun te : World * float =>
               forall c, In c (calls (fst te)) ->
                         In c (calls w) \/ tally_of_single eflag w c).
  destruct (compute_loops_from sbmask NEIGHMASK eflag w0 P) as [Hloop _].
  - unfold P. cbn [fst]. rewrite Hc. intros c0 Hin.
    apply in_app_iff in Hin. destruct Hin as [Hin|[<-|[]]]; [now left|].
    right. exact I.
  - intros ii jj t e Hii Hs Hjj Ht.
    destruct Hs as (Sp & Sx & Sty & Snl & Sfo & Snb & _ & _).
    set (i := list_ilist (neighlist w0) ii) in *.
    set (cd := candidate_of sbmask NEIGHMASK t i (atom_x (atom w0) i 0)
                 (atom_x (atom w0) i 1) (atom_x (atom w0) i 2) jj).
    destruct ((cand_rsq cd <? rd (pair t) cutsq (atom_type (atom w0) i)
                                 (atom_type (atom t) (cand_j cd)))%float) eqn:Hlt.
    + rewrite (compute_pair_within_energy sbmask NEIGHMASK eflag i _ _ _ _ jj t e Hlt).
      fold cd. unfold P. cbn [fst]. intros c0 Hin.
      match type of Hin with
      | In _ (calls (deposit ?a ?b ?dx ?dy ?dz ?ev ?fp ?t0)) =>
          destruct (deposit_calls a b dx dy dz ev fp t0) as [Hd|Hd]
      end; rewrite Hd in Hin; [now apply Ht|].
      apply in_app_iff in Hin. destruct Hin as [Hin|[<-|[]]]; [now apply Ht|].
      right. unfold tally_of_single.
      rewrite Snl, Sfo, Ha, Hf. repeat split.
      exists (sbmask (list_firstneigh (neighlist t) i jj)).
      cbv zeta. rewrite Sty, Ha, Sp, Hp.
      assert (Hfac : cand_factor cd
                     = force_special_lj (force w)
                         (sbmask (list_firstneigh (neighlist t) i jj))).
      { unfold cd, candidate_of. cbv zeta. cbn [cand_factor].
        now rewrite Sfo, Hf. }
      rewrite Hfac.
      change (cand_rsq cd)
        with (cand_delx cd * cand_delx cd + cand_dely cd * cand_dely cd
              + cand_delz cd * cand_delz cd)%float.
      split.
      * reflexivity.
      * intros He. destruct (Z.eqb_spec eflag 0) as [|_]; [contradiction|].
        reflexivity.
    + rewrite (compute_pair_beyond sbmask NEIGHMASK eflag i _ _ _ _ jj t e Hlt).
      exact Ht.
  - intros Hin. unfold P in Hloop.
    destruct (negb (vflag_fdotr _ =? 0)).
    + cbn [call calls] in Hin. apply in_app_iff in Hin.
      destruct Hin as [Hin|[<-|[]]]; [now apply Hloop | right; exact I].
    + now apply Hloop.
Qed.

End KernelTalliesPass.

Lemma init_one_keeps_configured_pair_witness :
  setflag (with_pair 1 1 1 1 0 0 0 0 0 2.5 fresh) 1 1 <> 0
  /\ fst (init_one pow_exact mix_geometric 1 1 (with_pair 1 1 1 1 0 0 0 0 0 2.5 fresh))
     = 2.5%float.
Proof.
  assert (H : setflag (with_pair 1 1 1 1 0 0 0 0 0 2.5 fresh) 1 1 <> 0)
    by (vm_compute; lia).
  split; [exact H|].
  exact (proj2 (init_one_keeps_configured_pair pow_exact mix_geometric 1 1
                  (with_pair 1 1 1 1 0 0 0 0 0 2.5 fresh) H)).
Defined.

(** Two types configured on the diagonal only: the pair [(1,2)] is mixed. *)
Lemma init_one_mixes_unset_pair_witness :
  let p := with_pair 2 2 4 1 0 0 0 0 0 4 (with_pair 1 1 1 1 0 0 0 0 0 1 fresh) in
  setflag p 1 2 = 0
  /\ rd (snd (init_one pow_exact mix_geometric 1 2 p)) sigma 1 2
     = mix_geometric p (rd p sigma 1 1) (rd p sigma 2 2).
Proof.
  intros p.
  assert (H : setflag p 1 2 = 0) by reflexivity.
  split; [exact H|].
  exact (proj1 (init_one_mixes_unset_pair pow_exact mix_geometric 1 2 p H)).
Defined.

Lemma init_one_twice_on_configured_pair_witness :
  let p := with_pair 1 1 1 1 0 0 0 0 0 2.5 fresh in
  setflag p 1 1 <> 0
  /\ fst (init_one pow_exact mix_geometric 1 1
            (snd (init_one pow_exact mix_geometric 1 1 p)))
     = fst (init_one pow_exact mix_geometric 1 1 p).
Proof.
  intros p.
  assert (H : setflag p 1 1 <> 0) by (vm_compute; lia).
  split; [exact H|].
  exact (proj2 (init_one_twice_on_configured_pair pow_exact mix_geometric 1 1 p H)).
Defined.

Lemma compute_pair_moves_two_atoms_witness :
  let w := two_particles pow_exact mix_geometric in
  let c := candidate_of sbmask_30 NEIGHMASK_30 w 1 1 0 0 0 in
  let jtype := atom_type (atom w) (cand_j c) in
  ((cand_rsq c <? rd (pair w) cutsq 1 jtype)%float = true /\ 1 <> cand_j c)
  /\ forall a k, (a <> 1 /\ a <> cand_j c) \/ ~ 0 <= k <= 2 ->
       atom_f (atom (fst (compute_pair sbmask_30 NEIGHMASK_30 1 1 1 0 0 1 0
                            (w, 0%float)))) a k
       = atom_f (atom w) a k.
Proof.
  intros w c jtype.
  assert (H1 : (cand_rsq c <? rd (pair w) cutsq 1 jtype)%float = true)
    by (vm_compute; reflexivity).
  assert (H2 : 1 <> cand_j c) by (vm_compute; lia).
  split; [split; [exact H1 | exact H2]|].
  exact (proj2 (proj2 (compute_pair_moves_two_atoms sbmask_30 NEIGHMASK_30
                         1 1 1 0 0 1 0 w 0 H1 H2))).
Defined.

Lemma compute_without_pair_in_range_witness :
  let w := two_particles_with_cut pow_exact mix_geometric 1 in
  (forall ii jj,
      0 <= ii < list_inum (neighlist w) ->
      0 <= jj < list_numneigh (neighlist w) (list_ilist (neighlist w) ii) ->
      beyond_cutoff sbmask_30 NEIGHMASK_30 w ii jj)
  /\ atom (compute sbmask_30 NEIGHMASK_30 ev_flags_energy 1 0 w) = atom w.
Proof.
  intros w.
  assert (H : forall ii jj,
             0 <= ii < list_inum (neighlist w) ->
             0 <= jj < list_numneigh (neighlist w) (list_ilist (neighlist w) ii) ->
             beyond_cutoff sbmask_30 NEIGHMASK_30 w ii jj).
  { intros ii jj Hii Hjj. cbn in Hii, Hjj.
    assert (ii = 0) by lia. assert (jj = 0) by lia. subst ii jj.
    vm_compute. reflexivity. }
  split; [exact H|].
  exact (proj1 (compute_without_pair_in_range sbmask_30 NEIGHMASK_30
                  ev_flags_energy 1 0 w H)).
Defined.

Lemma compute_without_tally_witness :
  fst (ev_flags_energy 0 0) = 0
  /\ calls (compute sbmask_30 NEIGHMASK_30 ev_flags_energy 0 0
              (two_particles pow_exact mix_geometric))
     = calls (two_particles pow_exact mix_geometric)
       ++ calls_without_tally ev_flags_energy 0 0.
Proof.
  split; [reflexivity|].
  exact (compute_without_tally sbmask_30 NEIGHMASK_30 ev_flags_energy 0 0
           (two_particles pow_exact mix_geometric) eq_refl).
Defined.

Lemma compute_tallies_what_single_gives_witness :
  let w := two_particles pow_exact mix_geometric in
  let c := Call_ev_tally 1 0 2 1 1 0 2 1 0 0 in
  In c (calls (compute sbmask_30 NEIGHMASK_30 ev_flags_energy 1 0 w))
  /\ (In c (calls w) \/ tally_of_single 1 w c).
Proof.
  intros w c.
  assert (H : In c (calls (compute sbmask_30 NEIGHMASK_30 ev_flags_energy 1 0 w))).
  { vm_compute. right. left. reflexivity. }
  split; [exact H|].
  exact (compute_tallies_what_single_gives sbmask_30 NEIGHMASK_30 ev_flags_energy
           1 0 w c H).
Defined.

